(** * Mole Attack: the session loop of [main.py], embedded and verified

    The development follows [src/main.py]: the configuration tables
    ([DIFFICULTIES], [THEMES]), the board layout ([create_holes]), the
    [Mole] entity, and one iteration of the [while True] loop of
    [run_game] as the function [frame], with the audio calls kept as a log
    of cues in the session state.

    Conventions.
    - Python [int] is [Z]; [//] on the non-negative operands of the layout
      is [Z.div]; [int(...)] truncates toward zero, which is [Z.quot].
    - A [pygame.Rect] is a record of [left], [top], [width], [height];
      [collidepoint] is half-open: the right and bottom edges are outside.
    - [mole_list] is a [list Mole]; [active_mole], a reference to one of
      its elements, is an index into that list, so that the aliasing of
      [active_mole] with the element of [mole_list] is kept.
    - [random.choice] takes its randomness from an oracle value of the
      frame input; what is proved holds for every value of the oracle. *)

From stdpp Require Import base list strings gmap.
From Stdlib Require Import ZArith Lia Sorted.

Open Scope Z_scope.

(** ** Window / grid configuration *)

Definition WINDOW_WIDTH : Z := 800.
Definition WINDOW_HEIGHT : Z := 600.
Definition FPS : Z := 60.

Definition GRID_ROWS : nat := 3.
Definition GRID_COLS : nat := 3.

(** ** Python results: a value, or the exception that ends the call *)

Inductive PyResult (A : Type) : Type :=
| Ok (a : A)
| KeyError (key : string).
Arguments Ok {A} a.
Arguments KeyError {A} key.

Definition is_Ok {A} (r : PyResult A) : bool :=
  match r with Ok _ => true | KeyError _ => false end.

(** [d[k]]: raises [KeyError] on a missing key. *)
Definition dict_getitem {V} (d : gmap string V) (k : string) : PyResult V :=
  match d !! k with
  | Some v => Ok v
  | None => KeyError k
  end.

(** [d.get(k, dflt)]: never raises. *)
Definition dict_get {V} (d : gmap string V) (k : string) (dflt : V) : V :=
  match d !! k with
  | Some v => v
  | None => dflt
  end.

(** ** Difficulty presets
    [(mole_visible_ms, spawn_interval_ms, game_length_seconds)] *)

Definition DIFFICULTIES : gmap string (Z * Z * Z) :=
  <["Easy" := (1200, 900, 30)]>
  (<["Medium" := (900, 700, 25)]>
  (<["Hard" := (650, 550, 20)]> ∅)).

(** ** Theme presets *)

Definition Color : Type := Z * Z * Z.

(** The run-time surfaces are opaque handles; [None] is Python's [None]. *)
Definition Surface : Type := nat.

Record Theme : Type := mkTheme {
  bg_type : string;
  bg_colors : Color * Color;
  bg_image_path : option string;
  bg_music_path : option string;
  mole_image_path : option string;
  hole_image_path : option string;
  bg_image_surface : option Surface;
  mole_image_surface_raw : option Surface;
  hole_image_surface_raw : option Surface
}.

Definition theme_Default : Theme :=
  mkTheme "gradient" ((10, 70, 50), (230, 140, 70))
          None (Some "assets/sounds/bg_music.mp3") None None
          None None None.

Definition theme_Jungle : Theme :=
  mkTheme "image" ((10, 60, 40), (40, 100, 60))
          (Some "assets/images/jungle_bg.png")
          (Some "assets/sounds/jungle_bg.mp3")
          (Some "assets/images/jungle_mole.png")
          (Some "assets/images/jungle_hole.png")
          None None None.

Definition theme_Beach : Theme :=
  mkTheme "image" ((30, 140, 200), (240, 220, 160))
          (Some "assets/images/beach_bg.png")
          (Some "assets/sounds/beach_bg.mp3")
          (Some "assets/images/beach_mole.png")
          (Some "assets/images/beach_hole.png")
          None None None.

Definition theme_Desert : Theme :=
  mkTheme "image" ((180, 140, 80), (240, 200, 130))
          (Some "assets/images/desert_bg.png")
          (Some "assets/sounds/desert_bg.mp3")
          (Some "assets/images/desert_mole.png")
          (Some "assets/images/desert_hole.png")
          None None None.

Definition THEMES : gmap string Theme :=
  <["Default" := theme_Default]>
  (<["Jungle" := theme_Jungle]>
  (<["Beach" := theme_Beach]>
  (<["Desert" := theme_Desert]> ∅))).

(** ** Rectangles *)

Record Rect : Type := mkRect {
  left : Z;
  top : Z;
  width : Z;
  height : Z
}.

Definition Point : Type := Z * Z.

(** [Rect.collidepoint]: a point on the right or bottom edge is outside. *)
Definition collidepoint (r : Rect) (p : Point) : bool :=
  (left r <=? fst p) && (fst p <? left r + width r) &&
  (top r <=? snd p) && (snd p <? top r + height r).

(** [surface.get_rect(center=pos)] for a surface of size [w] x [h]
    (sizes are non-negative here, so the halving is exact for the even
    sizes [2 * radius] of the moles). *)
Definition get_rect_center (w h : Z) (pos : Point) : Rect :=
  mkRect (fst pos - w / 2) (snd pos - h / 2) w h.

(** ** Board layout *)

(** The two nested [for] loops of [create_holes], row outermost. *)
Definition grid_positions (margin_x margin_y cell_w cell_h : Z)
    (rows cols : nat) : list Point :=
  row ← seq 0 rows;
  col ← seq 0 cols;
  [(margin_x + cell_w * Z.of_nat col + cell_w / 2,
    margin_y + cell_h * Z.of_nat row + cell_h / 2)].

Definition margin_x : Z := WINDOW_WIDTH / 8.
Definition margin_y : Z := WINDOW_HEIGHT / 6.
Definition available_width : Z := WINDOW_WIDTH - 2 * margin_x.
Definition available_height : Z := WINDOW_HEIGHT - 2 * margin_y.
Definition cell_w : Z := available_width / Z.of_nat GRID_COLS.
Definition cell_h : Z := available_height / Z.of_nat GRID_ROWS.

Definition create_holes : list Point * Z :=
  (grid_positions margin_x margin_y cell_w cell_h GRID_ROWS GRID_COLS,
   Z.min cell_w cell_h / 3).

(** ** The Mole entity *)

Record Mole : Type := mkMole {
  base_radius : Z;
  visible_ms : Z;
  use_sprite : bool;
  rect : Rect;
  active : bool;
  spawn_time : Z
}.

(** [Mole.__init__]. [mole_image_surface] is given by its size when it is
    not [None]; otherwise the image is a fresh surface of
    [(radius * 2, radius * 2)]. *)
Definition Mole_init (pos : Point) (radius visible : Z)
    (mole_image_surface : option (Z * Z)) : Mole :=
  let image_size :=
    match mole_image_surface with
    | Some size => size
    | None => (radius * 2, radius * 2)
    end in
  mkMole radius visible (bool_decide (mole_image_surface ≠ None))
         (get_rect_center (fst image_size) (snd image_size) pos)
         false 0.

Definition activate (now_ms : Z) (m : Mole) : Mole :=
  mkMole (base_radius m) (visible_ms m) (use_sprite m) (rect m) true now_ms.

Definition deactivate (m : Mole) : Mole :=
  mkMole (base_radius m) (visible_ms m) (use_sprite m) (rect m) false
         (spawn_time m).

Definition set_visible_ms (v : Z) (m : Mole) : Mole :=
  mkMole (base_radius m) v (use_sprite m) (rect m) (active m) (spawn_time m).

(** [Mole.update] *)
Definition Mole_update (now_ms : Z) (m : Mole) : Mole :=
  if active m && (visible_ms m <? now_ms - spawn_time m)
  then deactivate m
  else m.

(** ** The session *)

(** The audio calls of [run_game], in the order they are made. *)
Inductive Cue : Type :=
| MusicLoad (path : string)
| MusicPlay
| MusicSetVolume
| MusicStop
| GameOverSound
| SplatSound
| ClickSound.

Global Instance Cue_eq_dec : EqDecision Cue.
Proof. solve_decision. Defined.

(** What the session takes from its surroundings: the size of the rendered
    label of the Exit button, whether a click sound was passed, the image
    a file loads to ([None] when loading raises), whether loading a music
    file succeeds, and the clock value at session start. *)
Record Env : Type := mkEnv {
  exit_label_size : Z * Z;
  has_click_sound : bool;
  image_loads : string → option Surface;
  music_loads : string → bool;
  start_time_ms : Z
}.

(** The preloading loop of [main], which fills in the three surfaces of
    every theme of [THEMES] before any session runs: a missing path or a
    failed load leaves [None]. *)
Definition load_surface (e : Env) (path : option string) : option Surface :=
  match path with
  | Some p => if bool_decide (p = EmptyString) then None else image_loads e p
  | None => None
  end.

Definition preload_theme (e : Env) (t : Theme) : Theme :=
  mkTheme (bg_type t) (bg_colors t) (bg_image_path t) (bg_music_path t)
          (mole_image_path t) (hole_image_path t)
          (load_surface e (bg_image_path t))
          (load_surface e (mole_image_path t))
          (load_surface e (hole_image_path t)).

Definition THEMES_loaded (e : Env) : gmap string Theme :=
  preload_theme e <$> THEMES.

(** The names bound once in [run_game], before the loop. *)
Record Config : Type := mkConfig {
  env : Env;
  mole_visible_ms : Z;
  spawn_interval_ms : Z;
  game_length_seconds : Z;
  theme : Theme;
  positions : list Point;
  hole_radius : Z;
  mole_sprite : option (Z * Z);
  hole_sprite : option (Z * Z)
}.

(** The names the loop assigns, with the audio log. *)
Record State : Type := mkState {
  mole_list : list Mole;
  score : Z;
  lives : Z;
  last_spawn_time : Z;
  active_mole : option nat;
  game_over : bool;
  cues : list Cue
}.

Definition set_mole_list (ms : list Mole) (st : State) : State :=
  mkState ms (score st) (lives st) (last_spawn_time st) (active_mole st)
          (game_over st) (cues st).

Definition play (c : list Cue) (st : State) : State :=
  mkState (mole_list st) (score st) (lives st) (last_spawn_time st)
          (active_mole st) (game_over st) (cues st ++ c).

(** [compute_exit_button_rect] *)
Definition compute_exit_button_rect (e : Env) : Rect :=
  let padding_x := 10 in
  let padding_y := 6 in
  let w := fst (exit_label_size e) + padding_x * 2 in
  let h := snd (exit_label_size e) + padding_y * 2 in
  mkRect (WINDOW_WIDTH - 10 - w) 70 w h.

(** The set-up part of [run_game], up to the loop. *)
Definition theme_music_cues (e : Env) (t : Theme) : list Cue :=
  match bg_music_path t with
  | Some path =>
      if bool_decide (path = EmptyString) then []
      else if music_loads e path then [MusicLoad path; MusicPlay; MusicSetVolume]
      else []
  | None => []
  end.

Definition run_game_setup (e : Env) (difficulty_name theme_name : string)
    : PyResult (Config * State) :=
  match dict_getitem DIFFICULTIES difficulty_name with
  | KeyError k => KeyError k
  | Ok (visible, interval, len) =>
      let '(positions, hole_radius) := create_holes in
      let theme :=
        dict_get (THEMES_loaded e) theme_name (preload_theme e theme_Default) in
      let scaled raw extra :=
        match raw with
        | Some _ => Some (hole_radius * 2 + extra, hole_radius * 2 + extra)
        | None => None
        end in
      let mole_sprite := scaled (mole_image_surface_raw theme) 0 in
      let hole_sprite := scaled (hole_image_surface_raw theme) 16 in
      let moles :=
        (λ pos, Mole_init pos hole_radius visible mole_sprite) <$> positions in
      Ok (mkConfig e visible interval len theme positions hole_radius
                   mole_sprite hole_sprite,
          mkState moles 0 3 0 None false (theme_music_cues e theme))
  end.

(** ** One iteration of the loop *)

(** The events [run_game] distinguishes. A [MOUSEBUTTONDOWN] carries the
    value [pygame.mouse.get_pos()] returns while that event is handled. *)
Inductive Event : Type :=
| QUIT
| MOUSEBUTTONDOWN (button : Z) (mouse_pos : Point)
| KEYDOWN (key : Z)
| OtherEvent.

Definition K_ESCAPE : Z := 27.

(** How an iteration ends: the loop goes on, [run_game] returns to the
    menu, or the process exits. *)
Inductive Outcome : Type :=
| Continue (st : State)
| ReturnToMenu (st : State)
| ProcessExit (st : State).

Definition final_state (o : Outcome) : State :=
  match o with Continue st | ReturnToMenu st | ProcessExit st => st end.

Record FrameInput : Type := mkFrame {
  now_ms : Z;
  events : list Event;
  rnd : nat
}.

(** [elapsed_s = (now_ms - start_time_ms) / 1000.0] and
    [remaining_s = max(0, int(game_length_seconds - elapsed_s))].
    The clock is in whole milliseconds, so the real number under [int] is
    [(1000 * game_length_seconds - (now_ms - start_time_ms)) / 1000];
    [int] truncates it toward zero. The rounding of the two floating-point
    operations is far below the 1/1000 that separates a non-integer value
    from the next integer, so it does not change the truncated result for
    the tick values of the clock. *)
Definition remaining_s (c : Config) (now : Z) : Z :=
  Z.max 0 (Z.quot (game_length_seconds c * 1000 - (now - start_time_ms (env c))) 1000).

(** The [for mole in mole_list] loop of the click handler: [Some] of the
    updated list when a mole was hit (the loop left by [break]), [None]
    when the loop ran to its end. *)
Fixpoint hit_loop (mouse_pos : Point) (ms : list Mole) : option (list Mole) :=
  match ms with
  | [] => None
  | mole :: rest =>
      if active mole && collidepoint (rect mole) mouse_pos
      then Some (deactivate mole :: rest)
      else cons mole <$> hit_loop mouse_pos rest
  end.

Definition handle_click (st : State) (mouse_pos : Point) : State :=
  match hit_loop mouse_pos (mole_list st) with
  | Some ms =>
      mkState ms (score st + 1) (lives st) (last_spawn_time st)
              (active_mole st) (game_over st) (cues st ++ [SplatSound])
  | None =>
      mkState (mole_list st) (score st) (lives st - 1) (last_spawn_time st)
              (active_mole st) (game_over st) (cues st)
  end.

Definition handle_event (c : Config) (st : State) (ev : Event) : Outcome :=
  match ev with
  | QUIT => ProcessExit st
  | MOUSEBUTTONDOWN button mouse_pos =>
      if button =? 1 then
        if collidepoint (compute_exit_button_rect (env c)) mouse_pos
        then ReturnToMenu
               (if has_click_sound (env c) then play [ClickSound] st else st)
        else if negb (game_over st)
        then Continue (handle_click st mouse_pos)
        else Continue st
      else Continue st
  | KEYDOWN key =>
      if key =? K_ESCAPE then ReturnToMenu st else Continue st
  | OtherEvent => Continue st
  end.

Fixpoint handle_events (c : Config) (st : State) (evs : list Event) : Outcome :=
  match evs with
  | [] => Continue st
  | ev :: rest =>
      match handle_event c st ev with
      | Continue st' => handle_events c st' rest
      | o => o
      end
  end.

(** [random.choice(mole_list)], as the index of the chosen element. *)
Definition random_choice (r : nat) (ms : list Mole) : nat :=
  (r mod length ms)%nat.

(** [spawn_new_mole] *)
Definition spawn_new_mole (c : Config) (now : Z) (r : nat) (st : State) : State :=
  let ms :=
    match active_mole st with
    | Some i => alter deactivate i (mole_list st)
    | None => mole_list st
    end in
  let k := random_choice r ms in
  mkState (alter (λ m, activate now (set_visible_ms (mole_visible_ms c) m)) k ms)
          (score st) (lives st) (last_spawn_time st) (Some k)
          (game_over st) (cues st).

Definition game_over_check (c : Config) (now : Z) (st : State) : State :=
  if ((remaining_s c now <=? 0) || (lives st <=? 0)) && negb (game_over st)
  then mkState (mole_list st) (score st) (lives st) (last_spawn_time st)
               (active_mole st) true (cues st ++ [MusicStop; GameOverSound])
  else st.

Definition spawn_due (c : Config) (now : Z) (st : State) : bool :=
  negb (game_over st) && (spawn_interval_ms c <? now - last_spawn_time st).

Definition game_logic (c : Config) (now : Z) (r : nat) (st : State) : State :=
  let st1 :=
    if spawn_due c now st then
      let st' := spawn_new_mole c now r st in
      mkState (mole_list st') (score st') (lives st') now (active_mole st')
              (game_over st') (cues st')
    else st in
  set_mole_list (Mole_update now <$> mole_list st1) st1.

(** One pass through the body of [while True]: the terminal test, the
    event batch, the game logic. The drawing code that follows only reads
    the state and is left out. *)
Definition frame (c : Config) (st : State) (f : FrameInput) : Outcome :=
  match handle_events c (game_over_check c (now_ms f) st) (events f) with
  | Continue st' => Continue (game_logic c (now_ms f) (rnd f) st')
  | o => o
  end.

(** The loop over a finite prefix of frames. *)
Fixpoint run (c : Config) (st : State) (fs : list FrameInput) : Outcome :=
  match fs with
  | [] => Continue st
  | f :: rest =>
      match frame c st f with
      | Continue st' => run c st' rest
      | o => o
      end
  end.

(** ** The menu *)

(** The module-level names the menu callbacks assign. *)
Record Globals : Type := mkGlobals {
  player_name : string;
  selected_difficulty : string;
  selected_theme : string
}.

Definition globals_initial : Globals := mkGlobals "Player1" "Easy" "Default".

(** An item of a selector, [(title, value)], and the first argument a
    selector passes to [onchange]: the selected item with its index. *)
Definition SelectorItem : Type := string * Z.
Definition Selected : Type := SelectorItem * nat.

Definition set_player_name (value : string) (g : Globals) : Globals :=
  mkGlobals value (selected_difficulty g) (selected_theme g).

Definition set_difficulty (selected : Selected) (difficulty_index : Z)
    (g : Globals) : Globals :=
  mkGlobals (player_name g) (fst (fst selected)) (selected_theme g).

Definition set_theme (selected : Selected) (index : Z) (g : Globals) : Globals :=
  mkGlobals (player_name g) (selected_difficulty g) (fst (fst selected)).

Definition difficulty_items : list SelectorItem :=
  [("Easy", 1); ("Medium", 2); ("Hard", 3)].

Definition theme_items : list SelectorItem :=
  [("Default", 1); ("Jungle", 2); ("Beach", 3); ("Desert", 4)].

(** A selector moved to the item of index [index] calls its [onchange]
    with that item, the index, and the item's value. *)
Definition selector_onchange (items : list SelectorItem)
    (onchange : Selected → Z → Globals → Globals) (index : nat)
    (g : Globals) : Globals :=
  match items !! index with
  | Some item => onchange (item, index) (snd item) g
  | None => g
  end.

(** What the player does in the menu before pressing Play. *)
Inductive MenuInput : Type :=
| NameTyped (value : string)
| DifficultySelected (index : nat)
| ThemeSelected (index : nat).

Definition menu_input (g : Globals) (i : MenuInput) : Globals :=
  match i with
  | NameTyped value => set_player_name value g
  | DifficultySelected index =>
      selector_onchange difficulty_items set_difficulty index g
  | ThemeSelected index => selector_onchange theme_items set_theme index g
  end.

Definition menu_inputs (g : Globals) (inputs : list MenuInput) : Globals :=
  foldl menu_input g inputs.

(** ** The countdown *)

(** [show_countdown] reads the clock and the event queue; [clock] is the
    sequence of values [pygame.time.get_ticks()] returns to it, [batches]
    the sequence of results of [pygame.event.get()]. It ends by returning,
    by leaving the process on a QUIT event, or is still running when the
    readings given are used up. [shown] lists the numerals it has drawn,
    one for every pass through the body of its [while]. *)
Inductive CountdownOutcome : Type :=
| CountdownDone (shown : list Z) (clock : list Z) (batches : list (list Event))
| CountdownQuit (shown : list Z)
| CountdownPending (shown : list Z).


Definition is_QUIT (ev : Event) : bool :=
  match ev with QUIT => true | _ => false end.

(** The [while pygame.time.get_ticks() - start_ms < 1000] loop for one
    number. *)
Fixpoint countdown_while (number start_ms : Z) (clock : list Z)
    (batches : list (list Event)) (shown : list Z) : CountdownOutcome :=
  match clock with
  | [] => CountdownPending shown
  | ticks :: clock' =>
      if ticks - start_ms <? 1000 then
        match batches with
        | [] => CountdownPending shown
        | evs :: batches' =>
            if existsb is_QUIT evs then CountdownQuit shown
            else countdown_while number start_ms clock' batches'
                                 (shown ++ [number])
        end
      else CountdownDone shown clock' batches
  end.

(** The [for number in [3, 2, 1]] loop. *)
Fixpoint countdown_for (numbers : list Z) (clock : list Z)
    (batches : list (list Event)) (shown : list Z) : CountdownOutcome :=
  match numbers with
  | [] => CountdownDone shown clock batches
  | number :: rest =>
      match clock with
      | [] => CountdownPending shown
      | start_ms :: clock' =>
          match countdown_while number start_ms clock' batches shown with
          | CountdownDone shown' clock'' batches'' =>
              countdown_for rest clock'' batches'' shown'
          | o => o
          end
      end
  end.

Definition show_countdown (clock : list Z) (batches : list (list Event))
    : CountdownOutcome :=
  countdown_for [3; 2; 1] clock batches [].

(** ** Play *)

(** How a press on Play ends, with the audio calls made on the way:
    back in the menu, out of the process, the first statement of
    [run_game] raising, or still going on when the inputs given are used
    up. *)
Inductive PlayOutcome : Type :=
| BackInMenu (log : list Cue)
| LeftProcess (log : list Cue)
| PlayRaised (key : string)
| PlayPending (log : list Cue).

(** [start_the_game]: the click, the countdown, one session, and the
    default music put back. *)
Definition start_the_game (e : Env) (g : Globals) (clock : list Z)
    (batches : list (list Event)) (fs : list FrameInput) : PlayOutcome :=
  let click := if has_click_sound e then [ClickSound] else [] in
  match show_countdown clock batches with
  | CountdownQuit _ => LeftProcess click
  | CountdownPending _ => PlayPending click
  | CountdownDone _ _ _ =>
      match run_game_setup e (selected_difficulty g) (selected_theme g) with
      | KeyError k => PlayRaised k
      | Ok (c, st0) =>
          match run c st0 fs with
          | ReturnToMenu st =>
              BackInMenu (click ++ cues st ++ theme_music_cues e theme_Default)
          | ProcessExit st => LeftProcess (click ++ cues st)
          | Continue st => PlayPending (click ++ cues st)
          end
      end
  end.

(** ** Vocabulary of the statements *)

(** [hits p m]: the test of the click handler's loop body. *)
Definition hits (p : Point) (m : Mole) : bool :=
  active m && collidepoint (rect m) p.

(** The number of primary presses in a batch of events. *)
Definition is_press (ev : Event) : bool :=
  match ev with
  | MOUSEBUTTONDOWN button _ => button =? 1
  | _ => false
  end.

Definition presses (evs : list Event) : nat :=
  length (List.filter is_press evs).

(** The terminal test of the loop, before [and not game_over]. *)
Definition terminal_condition (c : Config) (now : Z) (st : State) : bool :=
  (remaining_s c now <=? 0) || (lives st <=? 0).

(** How often the terminal cues were issued so far. *)
Definition entries (st : State) : nat :=
  count_occ Cue_eq_dec (cues st) GameOverSound.

Definition stops (st : State) : nat :=
  count_occ Cue_eq_dec (cues st) MusicStop.

(** The summary of a state that the terminal transition is about. *)
Definition terminal_view (st : State) : bool * nat * nat * Z * Z :=
  (game_over st, entries st, stops st, score st, lives st).

(** Every mole that is up is the one [active_mole] refers to. *)
Definition up_is_active_mole (st : State) : Prop :=
  ∀ i m, mole_list st !! i = Some m → active m = true → active_mole st = Some i.

Definition active_count (st : State) : nat :=
  length (List.filter active (mole_list st)).

(** The rectangles of the moles, in list order. *)
Definition rects (st : State) : list Rect := rect <$> mole_list st.

(** The centre of the cell of index [k], counting row by row. *)
Definition cell_centre (mx my cw ch : Z) (cols : nat) (k : nat) : Point :=
  (mx + cw * Z.of_nat (k mod cols) + cw / 2,
   my + ch * Z.of_nat (k / cols) + ch / 2).

(** The names the two menu selectors offer. *)
Definition difficulty_names : list string := ["Easy"; "Medium"; "Hard"].
Definition theme_names : list string := ["Default"; "Jungle"; "Beach"; "Desert"].

(** An event the loop passes over: neither QUIT, nor a primary press,
    nor the escape key. *)
Definition is_inert (ev : Event) : bool :=
  match ev with
  | QUIT => false
  | MOUSEBUTTONDOWN button _ => negb (button =? 1)
  | KEYDOWN key => negb (key =? K_ESCAPE)
  | OtherEvent => true
  end.

(** The primary presses of all the batches of a list of frames. *)
Definition total_presses (fs : list FrameInput) : nat :=
  sum_list ((λ f, presses (events f)) <$> fs).

(** Every mole that is up was put up by the latest spawn, with the
    visible time of the session's difficulty. *)
Definition up_since_last_spawn (c : Config) (st : State) : Prop :=
  ∀ i m, mole_list st !! i = Some m → active m = true →
         spawn_time m = last_spawn_time st ∧ visible_ms m = mole_visible_ms c.

(** The number of hit cues in an audio log. *)
Definition splats_of (l : list Cue) : Z :=
  Z.of_nat (count_occ Cue_eq_dec l SplatSound).

(** ** A concrete session *)

(** An environment: the Exit label renders at 52 x 32, a click sound is
    given, no image file is found, music loads, and the session starts at
    tick 3000 (after the countdown). *)
Definition env0 : Env := mkEnv (52, 32) true (λ _, None) (λ _, true) 3000.

(** The Easy session with the Default theme, as [run_game] sets it up. *)
Definition cfg_easy : Config :=
  mkConfig env0 1200 900 30 theme_Default (fst create_holes)
           (snd create_holes) None None.

Definition st_easy : State :=
  mkState ((λ pos, Mole_init pos 44 1200 None) <$> fst create_holes)
          0 3 0 None false
          [MusicLoad "assets/sounds/bg_music.mp3"; MusicPlay; MusicSetVolume].

(** Its first iteration, with no input: mole 0 comes up at (200, 166). *)
Definition frame1 : FrameInput := mkFrame 3016 [] 0.
Definition st_one_up : State := final_state (run cfg_easy st_easy [frame1]).

(** A primary press away from the Exit button and from every hole. *)
Definition miss_at : Event := MOUSEBUTTONDOWN 1 (10, 300).

(** The session lost: mole 0 is up, three misses in the second iteration
    take the three lives, and the third iteration finds the game over
    with the mole still up. *)
Definition st_lost : State :=
  final_state (run cfg_easy st_easy
    [frame1; mkFrame 3032 [miss_at; miss_at; miss_at] 0; mkFrame 3048 [] 0]).

(** The session once its 30 seconds are over. *)
Definition st_over : State :=
  final_state (run cfg_easy st_easy [mkFrame 33000 [miss_at] 0]).

(** * Properties *)

Example create_holes_value :
  create_holes =
  ([(200, 166); (400, 166); (600, 166);
    (200, 299); (400, 299); (600, 299);
    (200, 432); (400, 432); (600, 432)], 44).
Proof. vm_compute. reflexivity. Qed.

Example difficulties_easy : dict_getitem DIFFICULTIES "Easy" = Ok (1200, 900, 30).
Proof. vm_compute. reflexivity. Qed.

Example difficulties_unknown : dict_getitem DIFFICULTIES "Insane" = KeyError "Insane".
Proof. vm_compute. reflexivity. Qed.

(** ** Board layout *)

Section Grid.
Context (mx my cw ch : Z).

Lemma grid_row_fmap (g : nat → Point) (l : list nat) :
  (col ← l; [g col]) = g <$> l.
Proof.
  induction l as [|a l IH]; [done|].
  by rewrite bind_cons, fmap_cons, IH.
Qed.

Lemma grid_positions_S rows cols :
  grid_positions mx my cw ch (S rows) cols =
  grid_positions mx my cw ch rows cols ++
  ((λ col, (mx + cw * Z.of_nat col + cw / 2,
            my + ch * Z.of_nat rows + ch / 2)) <$> seq 0 cols).
Proof.
  unfold grid_positions. rewrite seq_S, bind_app. simpl.
  by rewrite app_nil_r, grid_row_fmap.
Qed.

Lemma grid_positions_length rows cols :
  length (grid_positions mx my cw ch rows cols) = (rows * cols)%nat.
Proof.
  induction rows as [|rows IH]; [done|].
  rewrite grid_positions_S, length_app, length_fmap, length_seq, IH. lia.
Qed.

(** Row-major order: the position of index [k] is the centre of the cell
    in row [k / cols], column [k mod cols]. *)
Lemma grid_positions_row_major rows cols :
  grid_positions mx my cw ch rows cols =
  cell_centre mx my cw ch cols <$> seq 0 (rows * cols).
Proof.
  induction rows as [|rows IH]; [done|].
  rewrite grid_positions_S, IH.
  replace (S rows * cols)%nat with (rows * cols + cols)%nat by lia.
  rewrite seq_app, fmap_app. f_equal. simpl.
  apply list_eq. intros i. rewrite !list_lookup_fmap.
  destruct (decide (i < cols)%nat) as [Hi|Hi].
  - rewrite !lookup_seq_lt by done. simpl. unfold cell_centre.
    replace ((rows * cols + i) mod cols)%nat with i.
    2:{ rewrite Nat.add_comm, Nat.Div0.mod_add. symmetry. by apply Nat.mod_small. }
    replace ((rows * cols + i) / cols)%nat with rows; [done|].
    rewrite Nat.add_comm, Nat.div_add by lia.
    rewrite Nat.div_small by done. done.
  - rewrite !lookup_seq_ge by lia. done.
Qed.
End Grid.

(** C8. [create_holes] is a constant of the program: for the 800 x 600
    window and the 3 x 3 grid it yields exactly nine positions, in
    row-major order (index [k] is the centre of the cell in row [k / 3],
    column [k mod 3] of the grid inset by [WINDOW_WIDTH / 8] and
    [WINDOW_HEIGHT / 6]), pairwise distinct, strictly inside the window,
    and the radius is the positive integer [min(cell_w, cell_h) // 3]. *)
Theorem create_holes_layout :
  let ps := fst create_holes in
  let r := snd create_holes in
  let cw := (WINDOW_WIDTH - 2 * (WINDOW_WIDTH / 8)) / 3 in
  let ch := (WINDOW_HEIGHT - 2 * (WINDOW_HEIGHT / 6)) / 3 in
  length ps = 9%nat ∧
  ps = (λ k : nat, (WINDOW_WIDTH / 8 + cw * Z.of_nat (k mod 3) + cw / 2,
                    WINDOW_HEIGHT / 6 + ch * Z.of_nat (k / 3) + ch / 2))
         <$> seq 0 9 ∧
  NoDup ps ∧
  Forall (λ p, 0 < fst p < WINDOW_WIDTH ∧ 0 < snd p < WINDOW_HEIGHT) ps ∧
  0 < r ∧
  r = Z.min cw ch / 3.
Proof.
  cbv zeta. unfold create_holes, GRID_ROWS, GRID_COLS. cbn [fst snd].
  split; [apply grid_positions_length|].
  split; [apply (grid_positions_row_major margin_x margin_y cell_w cell_h 3 3)|].
  rewrite (grid_positions_row_major margin_x margin_y cell_w cell_h 3 3).
  split.
  { apply (bool_decide_unpack _). vm_compute. exact I. }
  split.
  { vm_compute. repeat constructor. }
  split; [by vm_compute | done].
Qed.

(** ** Configuration lookups *)

(** Membership of a literal name in one of the two lists, by evaluation. *)
Ltac by_names := apply (bool_decide_unpack _); vm_compute; exact I.

Lemma DIFFICULTIES_lookup_known d :
  d ∈ difficulty_names → is_Some (DIFFICULTIES !! d).
Proof.
  unfold difficulty_names. rewrite !elem_of_cons, elem_of_nil.
  intros [->|[->|[->|[]]]]; vm_compute; eauto.
Qed.

Lemma DIFFICULTIES_lookup_unknown d :
  d ∉ difficulty_names → DIFFICULTIES !! d = None.
Proof.
  unfold difficulty_names. rewrite !not_elem_of_cons. intros (?&?&?&_).
  unfold DIFFICULTIES. by rewrite !lookup_insert_ne.
Qed.

Lemma THEMES_lookup_unknown t :
  t ∉ theme_names → THEMES !! t = None.
Proof.
  unfold theme_names. rewrite !not_elem_of_cons. intros (?&?&?&?&_).
  unfold THEMES. by rewrite !lookup_insert_ne.
Qed.

Lemma run_game_setup_Ok e d t v i l :
  DIFFICULTIES !! d = Some (v, i, l) →
  ∃ c st, run_game_setup e d t = Ok (c, st) ∧
          theme c = dict_get (THEMES_loaded e) t (preload_theme e theme_Default) ∧
          mole_visible_ms c = v ∧ spawn_interval_ms c = i ∧
          game_length_seconds c = l ∧ env c = e ∧
          score st = 0 ∧ lives st = 3 ∧ last_spawn_time st = 0 ∧
          active_mole st = None ∧ game_over st = false ∧
          mole_list st =
            (λ pos, Mole_init pos (snd create_holes) v (mole_sprite c))
              <$> fst create_holes.
Proof.
  intros Hd. unfold run_game_setup, dict_getitem. rewrite Hd.
  destruct create_holes as [ps r] eqn:Hc. simpl.
  eexists _, _. split; [reflexivity|]. simpl. by repeat split.
Qed.

(** C3, counterexample: a difficulty name outside the table makes the
    first statement of [run_game] raise [KeyError]; the session does not
    start. *)
Lemma unknown_difficulty_raises :
  ("Insane" ∉ difficulty_names) ∧
  run_game_setup env0 "Insane" "Default" = KeyError "Insane" ∧
  is_Ok (run_game_setup env0 "Insane" "Default") = false.
Proof.
  split; [by_names | split; by vm_compute].
Qed.

(** C3, as amended: every theme name resolves, a name outside the table
    to the Default skin (the gradient theme, which has no image); the
    session starts for every theme name and every difficulty name of the
    table, and for a difficulty name outside the table the lookup raises
    [KeyError]. *)
Theorem setup_lookups e d t :
  (t ∉ theme_names →
     dict_get (THEMES_loaded e) t (preload_theme e theme_Default) =
     preload_theme e theme_Default) ∧
  (preload_theme e theme_Default =
     mkTheme "gradient" ((10, 70, 50), (230, 140, 70))
             None (Some "assets/sounds/bg_music.mp3") None None
             None None None) ∧
  (d ∈ difficulty_names →
     ∃ c st, run_game_setup e d t = Ok (c, st) ∧
             theme c = dict_get (THEMES_loaded e) t (preload_theme e theme_Default) ∧
             dict_getitem DIFFICULTIES d =
               Ok (mole_visible_ms c, spawn_interval_ms c, game_length_seconds c)) ∧
  (d ∉ difficulty_names → run_game_setup e d t = KeyError d).
Proof.
  split; [|split; [|split]].
  - intros Ht. unfold dict_get, THEMES_loaded.
    by rewrite lookup_fmap, THEMES_lookup_unknown.
  - done.
  - intros Hd. destruct (DIFFICULTIES_lookup_known d Hd) as [[[v i] l] Hl].
    destruct (run_game_setup_Ok e d t v i l Hl) as (c & st & -> & Ht & <- & <- & <- & _).
    exists c, st. repeat split; [done|]. unfold dict_getitem. by rewrite Hl.
  - intros Hd. unfold run_game_setup, dict_getitem.
    by rewrite DIFFICULTIES_lookup_unknown.
Qed.

Lemma setup_lookups_witness :
  dict_get (THEMES_loaded env0) "Neon" (preload_theme env0 theme_Default) =
    preload_theme env0 theme_Default ∧
  (∃ c st, run_game_setup env0 "Hard" "Neon" = Ok (c, st) ∧
           theme c = dict_get (THEMES_loaded env0) "Neon"
                              (preload_theme env0 theme_Default) ∧
           dict_getitem DIFFICULTIES "Hard" =
             Ok (mole_visible_ms c, spawn_interval_ms c, game_length_seconds c)) ∧
  run_game_setup env0 "Insane" "Neon" = KeyError "Insane".
Proof.
  destruct (setup_lookups env0 "Hard" "Neon") as (Ht & _ & Hd & _).
  destruct (setup_lookups env0 "Insane" "Neon") as (_ & _ & _ & Hu).
  split; [|split].
  - apply Ht. by_names.
  - apply Hd. by_names.
  - apply Hu. by_names.
Defined.

Example setup_easy : run_game_setup env0 "Easy" "Default" = Ok (cfg_easy, st_easy).
Proof. vm_compute. reflexivity. Qed.

(** ** The click handler *)

Lemma hit_loop_length p ms ms' :
  hit_loop p ms = Some ms' → length ms' = length ms.
Proof.
  revert ms'. induction ms as [|m ms IH]; intros ms' H; simpl in H; [done|].
  destruct (active m && collidepoint (rect m) p).
  - by simplify_eq.
  - destruct (hit_loop p ms) as [l|]; simplify_eq/=. f_equal. by apply IH.
Qed.

(** The loop stops at the first mole, in list order, that passes the test,
    and deactivates that mole only. *)
Lemma hit_loop_first p ms i m :
  ms !! i = Some m → hits p m = true →
  (∀ j m', (j < i)%nat → ms !! j = Some m' → hits p m' = false) →
  hit_loop p ms = Some (<[i := deactivate m]> ms).
Proof.
  revert i. induction ms as [|a ms IH]; intros i Hi Hm Hfirst; [done|].
  destruct i as [|i]; simpl in *.
  - simplify_eq. unfold hits in Hm. by rewrite Hm.
  - assert (hits p a = false) as Ha by (apply (Hfirst 0%nat); [lia | done]).
    unfold hits in Ha. rewrite Ha.
    rewrite (IH i); [done | done | done |].
    intros j m' Hj Hl. apply (Hfirst (S j)); [lia | done].
Qed.

Lemma hit_loop_none p ms :
  (∀ j m', ms !! j = Some m' → hits p m' = false) →
  hit_loop p ms = None.
Proof.
  induction ms as [|a ms IH]; intros H; [done|]. simpl.
  assert (hits p a = false) as Ha by (by apply (H 0%nat)).
  unfold hits in Ha. rewrite Ha, IH; [done|].
  intros j m' Hl. by apply (H (S j)).
Qed.

Lemma hit_loop_Some_inv p ms ms' :
  hit_loop p ms = Some ms' →
  ∃ i m, ms !! i = Some m ∧ hits p m = true ∧ ms' = <[i := deactivate m]> ms.
Proof.
  revert ms'. induction ms as [|a ms IH]; intros ms' H; simpl in H; [done|].
  destruct (active a && collidepoint (rect a) p) eqn:Ha.
  - simplify_eq. by exists 0%nat, a.
  - destruct (hit_loop p ms) as [l|]; simplify_eq/=.
    destruct (IH l eq_refl) as (i & m & Hi & Hm & ->).
    by exists (S i), m.
Qed.

(** The rectangle of a mole of radius [r] at [pos] is the half-open square
    of side [2 * r] around [pos]. *)
Lemma collidepoint_centre r pos p :
  collidepoint (get_rect_center (r * 2) (r * 2) pos) p = true ↔
  (- r ≤ fst p - fst pos < r ∧ - r ≤ snd p - snd pos < r).
Proof.
  unfold collidepoint, get_rect_center. simpl.
  rewrite Z.div_mul by lia.
  rewrite !andb_true_iff, !Z.leb_le, !Z.ltb_lt. lia.
Qed.

(** What the events of an iteration leave alone. *)
Lemma handle_event_frame_vars c st ev :
  let st' := final_state (handle_event c st ev) in
  game_over st' = game_over st ∧
  last_spawn_time st' = last_spawn_time st ∧
  active_mole st' = active_mole st ∧
  length (mole_list st') = length (mole_list st).
Proof.
  destruct ev as [|b p|k|]; simpl; try done.
  - destruct (b =? 1); [|done].
    destruct (collidepoint _ p).
    { by destruct (has_click_sound (env c)). }
    destruct (negb (game_over st)); simpl; [|done].
    unfold handle_click.
    destruct (hit_loop p (mole_list st)) as [ms|] eqn:Hh; simpl; [|done].
    by rewrite (hit_loop_length _ _ _ Hh).
  - by destruct (k =? K_ESCAPE).
Qed.

Lemma handle_events_frame_vars c evs : ∀ st,
  let st' := final_state (handle_events c st evs) in
  game_over st' = game_over st ∧
  last_spawn_time st' = last_spawn_time st ∧
  active_mole st' = active_mole st ∧
  length (mole_list st') = length (mole_list st).
Proof.
  induction evs as [|ev evs IH]; intros st; simpl; [done|].
  pose proof (handle_event_frame_vars c st ev) as Hev. simpl in Hev.
  destruct (handle_event c st ev) as [st1|st1|st1]; simpl in *; [|done..].
  destruct (IH st1) as (-> & -> & -> & ->). done.
Qed.

Lemma hit_loop_None_inv p ms :
  hit_loop p ms = None →
  ∀ j m', ms !! j = Some m' → hits p m' = false.
Proof.
  induction ms as [|a ms IH]; intros H j m' Hl; [done|]. simpl in H.
  destruct (active a && collidepoint (rect a) p) eqn:Ha; [done|].
  destruct (hit_loop p ms) eqn:Hh; [done|].
  destruct j as [|j]; simpl in Hl.
  - by simplify_eq.
  - by apply (IH eq_refl j).
Qed.

(** A primary press off the Exit button, while the game is on, goes to
    the click handler. *)
Lemma handle_event_press c st p :
  game_over st = false →
  collidepoint (compute_exit_button_rect (env c)) p = false →
  handle_event c st (MOUSEBUTTONDOWN 1 p) = Continue (handle_click st p).
Proof. intros Hg He. simpl. by rewrite He, Hg. Qed.

Example st_one_up_mole0 :
  mole_list st_one_up !! 0%nat =
  Some (mkMole 44 1200 false (get_rect_center (44 * 2) (44 * 2) (200, 166)) true 3016).
Proof. vm_compute. reflexivity. Qed.

Lemma st_one_up_others j m :
  j ≠ 0%nat → mole_list st_one_up !! j = Some m → active m = false.
Proof.
  intros Hj Hl. destruct j as [|j]; [done|].
  do 9 (destruct j as [|j]; [vm_compute in Hl; by simplify_eq|]).
  vm_compute in Hl. done.
Qed.

(** C7. A primary press while Running and off the Exit button: the moles
    are tested in creation order, and at the first active mole whose
    rectangle contains the press point the score goes up by exactly 1, that
    mole is deactivated (its [active] flag is false afterwards, every other
    mole is as it was) and the hit cue is played. With one active mole at
    (x, y) of radius r > 0, a press at (x, y) is such a hit, after which no
    mole is up, and a press at (x + 10 r, y) is a miss: lives goes down by
    1, score and moles are unchanged and the mole is still up. *)
Theorem press_hit_or_miss c st p :
  game_over st = false →
  collidepoint (compute_exit_button_rect (env c)) p = false →
  (∀ i m,
     mole_list st !! i = Some m → hits p m = true →
     (∀ j m', (j < i)%nat → mole_list st !! j = Some m' → hits p m' = false) →
     handle_event c st (MOUSEBUTTONDOWN 1 p) =
     Continue (mkState (<[i := deactivate m]> (mole_list st))
                       (score st + 1) (lives st) (last_spawn_time st)
                       (active_mole st) (game_over st)
                       (cues st ++ [SplatSound])) ∧
     (∃ m', <[i := deactivate m]> (mole_list st) !! i = Some m' ∧
            active m' = false ∧ rect m' = rect m) ∧
     (∀ j, j ≠ i → <[i := deactivate m]> (mole_list st) !! j = mole_list st !! j)) ∧
  (∀ i m x y r,
     0 < r →
     mole_list st !! i = Some m → active m = true →
     rect m = get_rect_center (r * 2) (r * 2) (x, y) →
     (∀ j m', j ≠ i → mole_list st !! j = Some m' → active m' = false) →
     (p = (x, y) →
        ∃ st', handle_event c st (MOUSEBUTTONDOWN 1 p) = Continue st' ∧
               score st' = score st + 1 ∧ lives st' = lives st ∧
               mole_list st' = <[i := deactivate m]> (mole_list st) ∧
               cues st' = cues st ++ [SplatSound] ∧
               (∃ m', mole_list st' !! i = Some m' ∧ active m' = false) ∧
               (∀ j m', mole_list st' !! j = Some m' → active m' = false)) ∧
     (p = (x + 10 * r, y) →
        ∃ st', handle_event c st (MOUSEBUTTONDOWN 1 p) = Continue st' ∧
               lives st' = lives st - 1 ∧ score st' = score st ∧
               mole_list st' = mole_list st ∧ cues st' = cues st ∧
               (∃ m', mole_list st' !! i = Some m' ∧ active m' = true))).
Proof.
  intros Hg He. rewrite (handle_event_press c st p Hg He). split.
  - intros i m Hi Hm Hfirst. split_and!.
    + unfold handle_click. by rewrite (hit_loop_first p _ i m Hi Hm Hfirst).
    + exists (deactivate m). split_and!; [|done|done].
      apply list_lookup_insert_eq. by eapply lookup_lt_Some.
    + intros j Hj. by apply list_lookup_insert_ne.
  - intros i m x y r Hr Hi Ha Hrect Hothers.
    assert (∀ j m', j ≠ i → mole_list st !! j = Some m' → hits p m' = false)
      as Hno.
    { intros j m' Hj Hl. unfold hits. by rewrite (Hothers j m' Hj Hl). }
    split; intros ->.
    + assert (hits (x, y) m = true) as Hm.
      { unfold hits. rewrite Ha, Hrect. simpl.
        apply collidepoint_centre. simpl. lia. }
      eexists. split; [reflexivity|]. unfold handle_click.
      rewrite (hit_loop_first (x, y) _ i m Hi Hm);
        [|intros j m' Hj; apply Hno; lia].
      cbn [score lives mole_list cues]. split_and!; try done.
      * exists (deactivate m). split; [|done].
        apply list_lookup_insert_eq. by eapply lookup_lt_Some.
      * intros j m' Hj. destruct (decide (i = j)) as [->|Hne].
        -- rewrite list_lookup_insert_eq in Hj by (by eapply lookup_lt_Some).
           by simplify_eq.
        -- rewrite list_lookup_insert_ne in Hj by done.
           by apply (Hothers j m').
    + assert (hits (x + 10 * r, y) m = false) as Hm.
      { unfold hits. rewrite Ha, Hrect. simpl.
        apply not_true_is_false. rewrite collidepoint_centre. simpl. lia. }
      eexists. split; [reflexivity|]. unfold handle_click.
      rewrite hit_loop_none.
      * cbn [score lives mole_list cues]. split_and!; try done. by exists m.
      * intros j m' Hl. destruct (decide (j = i)) as [->|Hj].
        -- by simplify_eq.
        -- by apply (Hno j).
Qed.

Lemma press_hit_or_miss_witness :
  (∃ st', handle_event cfg_easy st_one_up (MOUSEBUTTONDOWN 1 (200, 166)) = Continue st' ∧
          score st' = 1 ∧ lives st' = 3 ∧
          ∃ m', mole_list st' !! 0%nat = Some m' ∧ active m' = false) ∧
  (∃ st', handle_event cfg_easy st_one_up (MOUSEBUTTONDOWN 1 (640, 166)) = Continue st' ∧
          lives st' = 2 ∧ score st' = 0).
Proof.
  split.
  - destruct (press_hit_or_miss cfg_easy st_one_up (200, 166) eq_refl eq_refl)
      as [_ H].
    destruct (H 0%nat _ 200 166 44 eq_refl st_one_up_mole0 eq_refl eq_refl
                st_one_up_others) as [Hhit _].
    destruct (Hhit eq_refl) as (st' & Hst & Hs & Hl & _ & _ & Hdown & _).
    exists st'. by repeat split.
  - destruct (press_hit_or_miss cfg_easy st_one_up (640, 166) eq_refl eq_refl)
      as [_ H].
    destruct (H 0%nat _ 200 166 44 eq_refl st_one_up_mole0 eq_refl eq_refl
                st_one_up_others) as [_ Hmiss].
    destruct (Hmiss eq_refl) as (st' & Hst & Hl & Hs & _).
    exists st'. by repeat split.
Defined.

(** ** The hit region *)

(** C10, counterexample: mole 0 of the Easy session is up at (200, 166)
    with radius 44; the press at (244, 166) is at horizontal offset 44 and
    vertical offset 0, both at most the radius, and it is a miss. *)
Lemma right_edge_press_misses :
  ∃ m st',
    mole_list st_one_up !! 0%nat = Some m ∧ active m = true ∧
    rect m = get_rect_center (44 * 2) (44 * 2) (200, 166) ∧
    Z.abs (244 - 200) ≤ 44 ∧ Z.abs (166 - 166) ≤ 44 ∧
    game_over st_one_up = false ∧
    collidepoint (compute_exit_button_rect (env cfg_easy)) (244, 166) = false ∧
    handle_event cfg_easy st_one_up (MOUSEBUTTONDOWN 1 (244, 166)) = Continue st' ∧
    score st' = score st_one_up ∧
    lives st' = lives st_one_up - 1.
Proof.
  eexists _, _. split; [apply st_one_up_mole0|].
  repeat split; vm_compute; congruence.
Qed.

(** C10, as amended: the hit region of a mole of radius r at (x, y) is the
    half-open square [x - r, x + r) x [y - r, y + r), not the inscribed
    circle: a press while Running and off the Exit button, at offsets dx
    and dy from the centre of an active mole with -r <= dx < r and
    -r <= dy < r, registers as a hit, also where its Euclidean distance
    from the centre exceeds r (the corner (x - r, y - r) for r > 0); a
    press on the right or bottom edge is outside the region. *)
Theorem hit_region_half_open_square c st i m pos r p :
  game_over st = false →
  collidepoint (compute_exit_button_rect (env c)) p = false →
  mole_list st !! i = Some m → active m = true →
  rect m = get_rect_center (r * 2) (r * 2) pos →
  (hits p m = true ↔
     - r ≤ fst p - fst pos < r ∧ - r ≤ snd p - snd pos < r) ∧
  (- r ≤ fst p - fst pos < r → - r ≤ snd p - snd pos < r →
     ∃ st', handle_event c st (MOUSEBUTTONDOWN 1 p) = Continue st' ∧
            score st' = score st + 1 ∧ lives st' = lives st) ∧
  (0 < r →
     hits (fst pos - r, snd pos - r) m = true ∧
     r * r < (- r) * (- r) + (- r) * (- r) ∧
     hits (fst pos + r, snd pos) m = false ∧
     hits (fst pos, snd pos + r) m = false).
Proof.
  intros Hg He Hi Ha Hrect.
  assert (∀ q, hits q m = true ↔
               - r ≤ fst q - fst pos < r ∧ - r ≤ snd q - snd pos < r) as Hsq.
  { intros q. unfold hits. rewrite Ha, Hrect. simpl. apply collidepoint_centre. }
  split; [apply Hsq|]. split.
  - intros Hx Hy. rewrite (handle_event_press c st p Hg He).
    eexists. split; [reflexivity|]. unfold handle_click.
    destruct (hit_loop p (mole_list st)) as [ms|] eqn:Hh; [done|].
    pose proof (hit_loop_None_inv p _ Hh i m Hi) as Hno.
    assert (hits p m = true) as Hyes by (by apply Hsq).
    congruence.
  - intros Hr. repeat split.
    + apply Hsq. simpl. lia.
    + nia.
    + apply not_true_is_false. rewrite Hsq. simpl. lia.
    + apply not_true_is_false. rewrite Hsq. simpl. lia.
Qed.

Lemma hit_region_half_open_square_witness :
  (∃ st', handle_event cfg_easy st_one_up (MOUSEBUTTONDOWN 1 (156, 122)) = Continue st' ∧
          score st' = score st_one_up + 1 ∧ lives st' = lives st_one_up) ∧
  44 * 44 < (156 - 200) * (156 - 200) + (122 - 166) * (122 - 166).
Proof.
  split; [|lia].
  destruct (hit_region_half_open_square cfg_easy st_one_up 0 _ (200, 166) 44
              (156, 122) eq_refl eq_refl st_one_up_mole0 eq_refl eq_refl)
    as (_ & Hhit & _).
  apply Hhit; simpl; lia.
Defined.

(** ** The escape key *)

(** C9. An escape key press returns from [run_game] in every state of the
    session, the test of the key not being guarded by [game_over]: an
    iteration whose events reach a KEYDOWN of K_ESCAPE ends the session
    there, and in particular a Running session (game not over, lives left,
    time left) returns to the menu on escape with no Exit click, its state
    untouched and without any terminal cue. *)
Theorem escape_returns_to_menu c st now pre rest r st1 :
  handle_events c (game_over_check c now st) pre = Continue st1 →
  frame c st (mkFrame now (pre ++ KEYDOWN K_ESCAPE :: rest) r) = ReturnToMenu st1 ∧
  handle_event c st1 (KEYDOWN K_ESCAPE) = ReturnToMenu st1 ∧
  (game_over st = false → terminal_condition c now st = false →
     game_over st1 = false ∧
     frame c st (mkFrame now (KEYDOWN K_ESCAPE :: rest) r) = ReturnToMenu st).
Proof.
  intros Hpre.
  assert (∀ evs s s', handle_events c s evs = Continue s' →
            handle_events c s (evs ++ KEYDOWN K_ESCAPE :: rest) = ReturnToMenu s')
    as Happ.
  { induction evs as [|ev evs IH]; intros s s' H; simpl in *.
    - by simplify_eq.
    - destruct (handle_event c s ev); [by apply IH | done | done]. }
  split; [|split].
  - unfold frame. simpl. by rewrite (Happ _ _ _ Hpre).
  - done.
  - intros Hg Ht.
    assert (game_over_check c now st = st) as Hchk.
    { unfold game_over_check. fold (terminal_condition c now st). by rewrite Ht. }
    split.
    + pose proof (handle_events_frame_vars c pre (game_over_check c now st)) as Hv.
      simpl in Hv. rewrite Hpre, Hchk in Hv. simpl in Hv.
      destruct Hv as [-> _]. done.
    + unfold frame. simpl. by rewrite Hchk.
Qed.

Lemma escape_returns_to_menu_witness :
  game_over st_one_up = false ∧
  frame cfg_easy st_one_up (mkFrame 3032 [KEYDOWN K_ESCAPE] 5) = ReturnToMenu st_one_up.
Proof.
  destruct (escape_returns_to_menu cfg_easy st_one_up 3032 [] [] 5 st_one_up eq_refl)
    as (_ & _ & H).
  destruct (H eq_refl eq_refl) as [_ Hf]. split; [reflexivity | exact Hf].
Defined.

(** ** Remaining time *)

Lemma remaining_s_nonneg c now : 0 ≤ remaining_s c now.
Proof. unfold remaining_s. lia. Qed.

Lemma remaining_s_pos_iff c now :
  0 < remaining_s c now ↔
  now - start_time_ms (env c) ≤ (game_length_seconds c - 1) * 1000.
Proof.
  unfold remaining_s.
  set (a := game_length_seconds c * 1000 - (now - start_time_ms (env c))).
  replace (now - start_time_ms (env c))
    with (game_length_seconds c * 1000 - a) by (unfold a; lia).
  clearbody a.
  destruct (Z_le_gt_dec 0 a) as [Ha|Ha].
  - rewrite Z.quot_div_nonneg by lia.
    pose proof (Z.div_mod a 1000 ltac:(lia)).
    pose proof (Z.mod_pos_bound a 1000 ltac:(lia)). lia.
  - pose proof (Z.quot_le_mono a 0 1000 ltac:(lia) ltac:(lia)) as Hq.
    rewrite Z.quot_0_l in Hq by lia. lia.
Qed.

(** C4, counterexample: in the Easy session (30 s, started at tick 3000),
    at 29.001 s of elapsed time the remaining time is already 0, not the
    0.999 s of the untruncated formula, and the terminal test fires. *)
Lemma remaining_time_is_truncated :
  32001 - start_time_ms (env cfg_easy) < game_length_seconds cfg_easy * 1000 ∧
  remaining_s cfg_easy 32001 = 0 ∧
  lives st_easy = 3 ∧ game_over st_easy = false ∧
  game_over (game_over_check cfg_easy 32001 st_easy) = true.
Proof. repeat split; by vm_compute. Qed.

(** C4, as amended: [remaining_s] is the whole number of seconds left,
    [max(0, int(game_length_seconds - elapsed_s))], the difference being
    truncated: when the elapsed time is at most the game length it is the
    floor of the seconds left, otherwise 0. It is strictly positive, and
    with lives left the terminal test does not fire, exactly when the
    elapsed time is at most [game_length_seconds - 1] seconds. *)
Theorem remaining_s_truncated c now :
  let elapsed_ms := now - start_time_ms (env c) in
  let len_ms := game_length_seconds c * 1000 in
  0 ≤ remaining_s c now ∧
  (elapsed_ms ≤ len_ms →
     remaining_s c now * 1000 ≤ len_ms - elapsed_ms < remaining_s c now * 1000 + 1000) ∧
  (len_ms ≤ elapsed_ms → remaining_s c now = 0) ∧
  (0 < remaining_s c now ↔ elapsed_ms ≤ len_ms - 1000) ∧
  (∀ st, game_over st = false → 0 < lives st →
     (game_over (game_over_check c now st) = false ↔ elapsed_ms ≤ len_ms - 1000)).
Proof.
  cbv zeta. split; [apply remaining_s_nonneg|]. split; [|split; [|split]].
  - intros He. unfold remaining_s.
    rewrite Z.quot_div_nonneg by lia.
    set (a := game_length_seconds c * 1000 - (now - start_time_ms (env c))) in *.
    pose proof (Z.div_mod a 1000 ltac:(lia)).
    pose proof (Z.mod_pos_bound a 1000 ltac:(lia)).
    assert (0 ≤ a / 1000) by (apply Z.div_pos; lia). lia.
  - intros He.
    pose proof (remaining_s_nonneg c now).
    pose proof (remaining_s_pos_iff c now). lia.
  - rewrite remaining_s_pos_iff. lia.
  - intros st Hg Hl. unfold game_over_check. rewrite Hg. simpl.
    rewrite andb_true_r.
    pose proof (remaining_s_pos_iff c now) as Hp.
    destruct (remaining_s c now <=? 0) eqn:Hr; simpl.
    + apply Z.leb_le in Hr. split; [done | lia].
    + apply Z.leb_gt in Hr.
      assert ((lives st <=? 0) = false) as -> by (apply Z.leb_gt; lia).
      simpl. split; [lia | done].
Qed.

Lemma remaining_s_truncated_witness :
  remaining_s cfg_easy 32000 = 1 ∧
  game_over (game_over_check cfg_easy 32000 st_easy) = false ∧
  remaining_s cfg_easy 33000 = 0.
Proof.
  destruct (remaining_s_truncated cfg_easy 32000) as (H0 & Hfloor & _ & _ & Hchk).
  destruct (remaining_s_truncated cfg_easy 33000) as (_ & _ & Hz & _).
  split; [|split].
  - assert (32000 - start_time_ms (env cfg_easy) ≤ game_length_seconds cfg_easy * 1000)
      as Hle by (vm_compute; congruence).
    specialize (Hfloor Hle).
    change (start_time_ms (env cfg_easy)) with 3000 in Hfloor.
    change (game_length_seconds cfg_easy) with 30 in Hfloor. lia.
  - apply (Hchk st_easy eq_refl); [reflexivity | vm_compute; congruence].
  - apply Hz. vm_compute. congruence.
Defined.

(** ** What each part of an iteration changes *)

Lemma handle_event_cues c st ev :
  let st' := final_state (handle_event c st ev) in
  entries st' = entries st ∧ stops st' = stops st.
Proof.
  unfold entries, stops.
  destruct ev as [|b p|k|]; simpl; try done.
  - destruct (b =? 1); [|done].
    destruct (collidepoint _ p).
    { destruct (has_click_sound (env c)); simpl; [|done].
      rewrite !count_occ_app. simpl. lia. }
    destruct (negb (game_over st)); simpl; [|done].
    unfold handle_click.
    destruct (hit_loop p (mole_list st)); simpl; [|done].
    rewrite !count_occ_app. simpl. lia.
  - by destruct (k =? K_ESCAPE).
Qed.

Lemma handle_events_cues c evs : ∀ st,
  let st' := final_state (handle_events c st evs) in
  entries st' = entries st ∧ stops st' = stops st.
Proof.
  induction evs as [|ev evs IH]; intros st; simpl; [done|].
  pose proof (handle_event_cues c st ev) as Hev. simpl in Hev.
  destruct (handle_event c st ev) as [st1|st1|st1]; simpl in *; [|done..].
  destruct (IH st1) as (-> & ->). done.
Qed.

(** After game over the events change neither score, lives nor moles. *)
Lemma handle_event_over c st ev :
  game_over st = true →
  let st' := final_state (handle_event c st ev) in
  score st' = score st ∧ lives st' = lives st ∧ mole_list st' = mole_list st.
Proof.
  intros Hg. destruct ev as [|b p|k|]; simpl; try done.
  - destruct (b =? 1); [|done].
    destruct (collidepoint _ p).
    { by destruct (has_click_sound (env c)). }
    by rewrite Hg.
  - by destruct (k =? K_ESCAPE).
Qed.

Lemma handle_events_over c evs : ∀ st,
  game_over st = true →
  let st' := final_state (handle_events c st evs) in
  score st' = score st ∧ lives st' = lives st ∧ mole_list st' = mole_list st.
Proof.
  induction evs as [|ev evs IH]; intros st Hg; simpl; [done|].
  pose proof (handle_event_over c st ev Hg) as Hev.
  pose proof (handle_event_frame_vars c st ev) as Hv. simpl in Hev, Hv.
  destruct (handle_event c st ev) as [st1|st1|st1]; simpl in *; [|done..].
  destruct Hev as (<- & <- & <-). destruct Hv as (Hg1 & _).
  apply IH. congruence.
Qed.

Lemma game_logic_vars c now r st :
  score (game_logic c now r st) = score st ∧
  lives (game_logic c now r st) = lives st ∧
  game_over (game_logic c now r st) = game_over st ∧
  cues (game_logic c now r st) = cues st.
Proof. unfold game_logic. by destruct (spawn_due c now st). Qed.

Lemma frame_over c st f :
  game_over st = true →
  terminal_view (final_state (frame c st f)) = terminal_view st.
Proof.
  intros Hg. unfold frame.
  assert (game_over_check c (now_ms f) st = st) as ->.
  { unfold game_over_check. rewrite Hg. by rewrite andb_false_r. }
  pose proof (handle_events_over c (events f) st Hg) as Ho.
  pose proof (handle_events_cues c (events f) st) as Hc.
  pose proof (handle_events_frame_vars c (events f) st) as Hv.
  simpl in Ho, Hc, Hv. unfold terminal_view.
  destruct (handle_events c st (events f)) as [s|s|s]; cbn [final_state] in *.
  - pose proof (game_logic_vars c (now_ms f) (rnd f) s) as Hl.
    unfold entries, stops in *.
    destruct Hl as (-> & -> & -> & ->).
    destruct Ho as (-> & -> & _), Hc as (-> & ->), Hv as (-> & _). done.
  - destruct Ho as (-> & -> & _), Hc as (-> & ->), Hv as (-> & _). done.
  - destruct Ho as (-> & -> & _), Hc as (-> & ->), Hv as (-> & _). done.
Qed.

Lemma run_over c fs : ∀ st,
  game_over st = true →
  terminal_view (final_state (run c st fs)) = terminal_view st.
Proof.
  induction fs as [|f fs IH]; intros st Hg; simpl; [done|].
  pose proof (frame_over c st f Hg) as Hf.
  destruct (frame c st f) as [s|s|s]; simpl in *; [|done..].
  rewrite <- Hf. apply IH.
  unfold terminal_view in Hf. rewrite Hg in Hf. congruence.
Qed.

Lemma frame_not_entered c st f :
  game_over st = false → terminal_condition c (now_ms f) st = false →
  let st' := final_state (frame c st f) in
  game_over st' = false ∧ entries st' = entries st ∧ stops st' = stops st.
Proof.
  intros Hg Ht. unfold frame.
  assert (game_over_check c (now_ms f) st = st) as ->.
  { unfold game_over_check. fold (terminal_condition c (now_ms f) st).
    by rewrite Ht. }
  pose proof (handle_events_cues c (events f) st) as Hc.
  pose proof (handle_events_frame_vars c (events f) st) as Hv.
  simpl in Hc, Hv.
  destruct (handle_events c st (events f)) as [s|s|s]; cbn [final_state] in *.
  - pose proof (game_logic_vars c (now_ms f) (rnd f) s) as Hl.
    unfold entries, stops in *.
    destruct Hl as (_ & _ & -> & ->).
    destruct Hc as (-> & ->), Hv as (-> & _). done.
  - destruct Hc as (-> & ->), Hv as (-> & _). done.
  - destruct Hc as (-> & ->), Hv as (-> & _). done.
Qed.

(** ** The terminal transition *)

Lemma game_over_check_idem c now st :
  game_over_check c now (game_over_check c now st) = game_over_check c now st.
Proof.
  unfold game_over_check at 2 3.
  destruct (((remaining_s c now <=? 0) || (lives st <=? 0)) && negb (game_over st))
    eqn:Hc.
  - unfold game_over_check. simpl. by rewrite andb_false_r.
  - unfold game_over_check. by rewrite Hc.
Qed.

(** C5, counterexample: in the Easy session, 29.001 s into its 30 s and
    with three lives, the time left is 0.999 s and lives is 3, so neither
    "remaining time <= 0" nor "lives <= 0" holds; the iteration enters game
    over all the same, stopping the music and playing the game-over cue. *)
Lemma game_over_entered_with_time_left :
  let f := mkFrame 32001 [] 0 in
  0 < game_length_seconds cfg_easy * 1000 - (now_ms f - start_time_ms (env cfg_easy)) ∧
  0 < lives st_one_up ∧
  game_over st_one_up = false ∧
  game_over (final_state (frame cfg_easy st_one_up f)) = true ∧
  cues (final_state (frame cfg_easy st_one_up f))
    = cues st_one_up ++ [MusicStop; GameOverSound].
Proof. cbv zeta. repeat split; by vm_compute. Qed.

(** C5, as amended: the game-over transition is taken exactly once. The
    test, made at the top of an iteration before its events, is
    [remaining_s <= 0 or lives <= 0] with [remaining_s] the whole seconds
    left: it holds exactly when more than [game_length_seconds - 1] seconds
    have elapsed or lives is at most 0. When the game is not over and the
    test holds, the music is stopped and the game-over cue played, and from
    there to the end of the session (the return to the menu or any later
    iteration, whatever the inputs) the game stays over, the two terminal
    effects are not repeated and score and lives do not move; when the game
    is not over and the test fails, the iteration leaves it not over and
    issues no terminal effect; when the game is already over nothing of
    this changes again. *)
Theorem game_over_entered_once c st f fs :
  let now := now_ms f in
  let st' := final_state (run c st (f :: fs)) in
  (game_over st = false → terminal_condition c now st = true →
     cues (game_over_check c now st) = cues st ++ [MusicStop; GameOverSound] ∧
     game_over st' = true ∧
     entries st' = S (entries st) ∧ stops st' = S (stops st) ∧
     score st' = score st ∧ lives st' = lives st) ∧
  (game_over st = false → terminal_condition c now st = false →
     let s1 := final_state (frame c st f) in
     game_over s1 = false ∧ entries s1 = entries st ∧ stops s1 = stops st) ∧
  (game_over st = true →
     game_over st' = true ∧
     entries st' = entries st ∧ stops st' = stops st ∧
     score st' = score st ∧ lives st' = lives st) ∧
  (terminal_condition c now st = true ↔
     (game_length_seconds c - 1) * 1000 < now - start_time_ms (env c) ∨
     lives st ≤ 0).
Proof.
  cbv zeta. split; [|split; [|split]]; cycle 3.
  { unfold terminal_condition. rewrite orb_true_iff, !Z.leb_le.
    pose proof (remaining_s_nonneg c (now_ms f)).
    pose proof (remaining_s_pos_iff c (now_ms f)). lia. }
  - intros Hg Ht.
    set (s0 := game_over_check c (now_ms f) st).
    assert (s0 = mkState (mole_list st) (score st) (lives st) (last_spawn_time st)
                         (active_mole st) true
                         (cues st ++ [MusicStop; GameOverSound])) as Hs0.
    { unfold s0, game_over_check. fold (terminal_condition c (now_ms f) st).
      by rewrite Ht, Hg. }
    split; [by rewrite Hs0|].
    assert (terminal_view (final_state (run c st (f :: fs))) = terminal_view s0)
      as Hview.
    { assert (frame c st f = frame c s0 f) as Hsame.
      { unfold frame, s0. by rewrite game_over_check_idem. }
      change (run c st (f :: fs)) with
        (match frame c st f with Continue s => run c s fs | o => o end).
      rewrite Hsame.
      change (terminal_view (final_state (run c s0 (f :: fs))) = terminal_view s0).
      apply run_over. by rewrite Hs0. }
    assert (terminal_view s0 =
            (true, S (entries st), S (stops st), score st, lives st)) as Hv0.
    { rewrite Hs0. unfold terminal_view, entries, stops. simpl.
      rewrite !count_occ_app. simpl. repeat f_equal; lia. }
    rewrite Hv0 in Hview. unfold terminal_view in Hview.
    injection Hview as Hg' He Hst Hsc Hl. done.
  - intros Hg Ht. by apply frame_not_entered.
  - intros Hg. pose proof (run_over c (f :: fs) st Hg) as Hview.
    unfold terminal_view in Hview.
    injection Hview as Hg' He Hst Hsc Hl. rewrite Hg in Hg'. done.
Qed.

Lemma game_over_entered_once_witness :
  (let st' := final_state (run cfg_easy st_easy
                [mkFrame 33000 [miss_at] 0; mkFrame 33016 [miss_at; miss_at] 1]) in
   game_over st' = true ∧ entries st' = 1%nat ∧ stops st' = 1%nat ∧
   score st' = 0 ∧ lives st' = 3) ∧
  (let s1 := final_state (frame cfg_easy st_easy (mkFrame 3016 [miss_at] 0)) in
   game_over s1 = false ∧ entries s1 = 0%nat) ∧
  (let st' := final_state (run cfg_easy st_over [mkFrame 33016 [miss_at] 2]) in
   game_over st' = true ∧ entries st' = 1%nat ∧ lives st' = 3).
Proof.
  split; [|split]; cbv zeta.
  - destruct (game_over_entered_once cfg_easy st_easy (mkFrame 33000 [miss_at] 0)
                [mkFrame 33016 [miss_at; miss_at] 1]) as (H & _ & _).
    destruct (H eq_refl eq_refl) as (_ & Hg & He & Hs & Hsc & Hl).
    repeat split; assumption.
  - destruct (game_over_entered_once cfg_easy st_easy (mkFrame 3016 [miss_at] 0) [])
      as (_ & H & _).
    destruct (H eq_refl eq_refl) as (Hg & He & _). split; assumption.
  - destruct (game_over_entered_once cfg_easy st_over (mkFrame 33016 [miss_at] 2) [])
      as (_ & _ & H & _).
    destruct (H eq_refl) as (Hg & He & _ & _ & Hl). repeat split; assumption.
Defined.

(** ** Lives *)

Lemma handle_event_lives c st ev :
  lives st - (if is_press ev then 1 else 0)
    ≤ lives (final_state (handle_event c st ev)) ≤ lives st.
Proof.
  destruct ev as [|b p|k|]; simpl; try lia.
  - destruct (b =? 1); [|simpl; lia].
    destruct (collidepoint _ p).
    { destruct (has_click_sound (env c)); simpl; lia. }
    destruct (negb (game_over st)); simpl; [|lia].
    unfold handle_click. destruct (hit_loop p (mole_list st)); simpl; lia.
  - destruct (k =? K_ESCAPE); simpl; lia.
Qed.

Lemma handle_events_lives c evs : ∀ st,
  lives st - Z.of_nat (presses evs)
    ≤ lives (final_state (handle_events c st evs)) ≤ lives st.
Proof.
  unfold presses.
  induction evs as [|ev evs IH]; intros st; simpl; [lia|].
  pose proof (handle_event_lives c st ev) as Hev.
  destruct (handle_event c st ev) as [st1|st1|st1]; simpl in Hev.
  - specialize (IH st1). destruct (is_press ev); simpl; lia.
  - destruct (is_press ev); simpl; lia.
  - destruct (is_press ev); simpl; lia.
Qed.

(** One iteration: with lives left at the top and at most [n] presses in
    the batch, lives stays within [1 - n .. lives]. *)
Lemma frame_lives c st f n :
  (1 ≤ n)%nat → (presses (events f) ≤ n)%nat →
  1 - Z.of_nat n ≤ lives st →
  1 - Z.of_nat n ≤ lives (final_state (frame c st f)) ≤ lives st.
Proof.
  intros Hn Hp Hl. unfold frame.
  set (s0 := game_over_check c (now_ms f) st).
  assert (lives s0 = lives st) as Hl0.
  { unfold s0, game_over_check. by destruct (_ && _). }
  assert (lives (final_state (handle_events c s0 (events f))) ≤ lives st ∧
          1 - Z.of_nat n ≤ lives (final_state (handle_events c s0 (events f))))
    as Hev.
  { pose proof (handle_events_lives c (events f) s0) as Hb.
    destruct (game_over s0) eqn:Hg0.
    - destruct (handle_events_over c (events f) s0 Hg0) as (_ & Hsame & _). lia.
    - assert (0 < lives st).
      { unfold s0, game_over_check in Hg0.
        destruct (lives st <=? 0) eqn:Hle; [|by apply Z.leb_gt in Hle].
        rewrite orb_true_r in Hg0. simpl in Hg0.
        destruct (game_over st) eqn:Hg; simpl in Hg0; congruence. }
      lia. }
  destruct (handle_events c s0 (events f)) as [s|s|s]; cbn [final_state] in *;
    [|lia..].
  destruct (game_logic_vars c (now_ms f) (rnd f) s) as (_ & -> & _). lia.
Qed.

Lemma run_lives c n fs : ∀ st,
  (1 ≤ n)%nat →
  Forall (λ f, (presses (events f) ≤ n)%nat) fs →
  1 - Z.of_nat n ≤ lives st →
  1 - Z.of_nat n ≤ lives (final_state (run c st fs)) ≤ lives st.
Proof.
  induction fs as [|f fs IH]; intros st Hn Hfs Hl; simpl; [lia|].
  inversion Hfs as [|? ? Hf Hrest]; subst.
  pose proof (frame_lives c st f n Hn Hf Hl) as Hb.
  destruct (frame c st f) as [s|s|s]; cbn [final_state] in *; [|lia..].
  specialize (IH s Hn Hrest ltac:(lia)). lia.
Qed.

(** C1, counterexample: four miss clicks in the event batch of the first
    iteration of the Easy session (the game is on, the point (10, 300) is
    off the Exit button and no mole is up yet) take lives from 3 to -1. *)
Lemma four_misses_in_one_frame :
  let f := mkFrame 3016 [miss_at; miss_at; miss_at; miss_at] 0 in
  let st := final_state (run cfg_easy st_easy [f]) in
  game_over (game_over_check cfg_easy (now_ms f) st_easy) = false ∧
  collidepoint (compute_exit_button_rect (env cfg_easy)) (10, 300) = false ∧
  hit_loop (10, 300) (mole_list st_easy) = None ∧
  lives st_easy = 3 ∧
  lives st = -1 ∧ lives st < 0.
Proof. cbv zeta. repeat split; by vm_compute. Qed.

(** C1, as amended: lives starts at 3, never goes up, and a miss click
    takes exactly 1 from it, with no floor; the terminal test is made once
    per iteration, before the event batch, so lives never goes below
    [1 - n] where [n >= 1] bounds the number of primary presses in any one
    batch. In particular lives never goes below 0 in a session whose
    batches hold at most one primary press each. *)
Theorem lives_lower_bound e d t c st0 n fs :
  run_game_setup e d t = Ok (c, st0) →
  (1 ≤ n)%nat →
  Forall (λ f, (presses (events f) ≤ n)%nat) fs →
  1 - Z.of_nat n ≤ lives (final_state (run c st0 fs)) ≤ 3 ∧
  (n = 1%nat → 0 ≤ lives (final_state (run c st0 fs))) ∧
  (∀ st p, hit_loop p (mole_list st) = None →
           lives (handle_click st p) = lives st - 1).
Proof.
  intros Hsetup Hn Hfs.
  assert (lives st0 = 3) as Hl0.
  { unfold run_game_setup in Hsetup.
    destruct (dict_getitem DIFFICULTIES d) as [[[v i] l]|]; [|done].
    destruct create_holes. by simplify_eq. }
  pose proof (run_lives c n fs st0 Hn Hfs ltac:(lia)) as Hb.
  split; [lia|]. split; [lia|].
  intros st p Hh. unfold handle_click. by rewrite Hh.
Qed.

Lemma lives_lower_bound_witness :
  0 ≤ lives (final_state (run cfg_easy st_easy
               [mkFrame 3016 [miss_at] 0; mkFrame 3032 [miss_at] 0;
                mkFrame 3048 [miss_at] 0; mkFrame 3064 [miss_at] 0])).
Proof.
  refine (proj1 (proj2 (lives_lower_bound env0 "Easy" "Default" cfg_easy st_easy 1
                          _ eq_refl (le_n 1) _)) eq_refl).
  repeat constructor.
Defined.

(** ** At most one mole is up *)

Lemma filter_active_le_1 (ms : list Mole) :
  (∀ i j mi mj, ms !! i = Some mi → ms !! j = Some mj →
                active mi = true → active mj = true → i = j) →
  (length (List.filter active ms) ≤ 1)%nat.
Proof.
  induction ms as [|a ms IH]; intros Huniq; simpl; [lia|].
  destruct (active a) eqn:Ha; simpl.
  - assert (List.filter active ms = []) as ->; [|simpl; lia].
    destruct (List.filter active ms) as [|b l] eqn:Hf; [done|].
    assert (In b (List.filter active ms)) as Hb by (rewrite Hf; by left).
    apply filter_In in Hb as [Hin Hact].
    apply list_elem_of_In, list_elem_of_lookup in Hin as [j Hj].
    by specialize (Huniq 0%nat (S j) a b eq_refl Hj Ha Hact).
  - apply IH. intros i j mi mj Hi Hj Hai Haj.
    specialize (Huniq (S i) (S j) mi mj Hi Hj Hai Haj). lia.
Qed.

Lemma up_is_active_mole_count st :
  up_is_active_mole st → (active_count st ≤ 1)%nat.
Proof.
  intros Hinv. apply filter_active_le_1.
  intros i j mi mj Hi Hj Hai Haj.
  pose proof (Hinv i mi Hi Hai). pose proof (Hinv j mj Hj Haj). congruence.
Qed.

Lemma handle_click_up st p :
  up_is_active_mole st → up_is_active_mole (handle_click st p).
Proof.
  intros Hinv. unfold handle_click.
  destruct (hit_loop p (mole_list st)) as [ms|] eqn:Hh; [|exact Hinv].
  destruct (hit_loop_Some_inv p _ _ Hh) as (i & m & Hi & _ & ->).
  intros j m' Hj Ha. simpl in *.
  destruct (decide (i = j)) as [->|Hne].
  - rewrite list_lookup_insert_eq in Hj by (by eapply lookup_lt_Some).
    by simplify_eq.
  - rewrite list_lookup_insert_ne in Hj by done. by apply Hinv with m'.
Qed.

Lemma handle_event_up c st ev :
  up_is_active_mole st → up_is_active_mole (final_state (handle_event c st ev)).
Proof.
  intros Hinv. destruct ev as [|b p|k|]; simpl; try done.
  - destruct (b =? 1); [|done].
    destruct (collidepoint _ p).
    { by destruct (has_click_sound (env c)). }
    destruct (negb (game_over st)); simpl; [|done].
    by apply handle_click_up.
  - by destruct (k =? K_ESCAPE).
Qed.

Lemma handle_events_up c evs : ∀ st,
  up_is_active_mole st → up_is_active_mole (final_state (handle_events c st evs)).
Proof.
  induction evs as [|ev evs IH]; intros st Hinv; simpl; [done|].
  pose proof (handle_event_up c st ev Hinv) as Hev.
  destruct (handle_event c st ev) as [s|s|s]; simpl in *; [by apply IH|done..].
Qed.

Lemma spawn_new_mole_up c now r st :
  up_is_active_mole st → up_is_active_mole (spawn_new_mole c now r st).
Proof.
  intros Hinv. unfold spawn_new_mole.
  set (ms := match active_mole st with
             | Some i => alter deactivate i (mole_list st)
             | None => mole_list st
             end).
  assert (∀ j m, ms !! j = Some m → active m = false) as Hdown.
  { intros j m Hj. destruct (active m) eqn:Ha; [|done]. exfalso.
    unfold ms in Hj. destruct (active_mole st) as [i|] eqn:Hi.
    - destruct (decide (i = j)) as [->|Hne].
      + rewrite list_lookup_alter_eq in Hj.
        destruct (mole_list st !! j); simplify_eq/=.
      + rewrite list_lookup_alter_ne in Hj by done.
        pose proof (Hinv j m Hj Ha). congruence.
    - pose proof (Hinv j m Hj Ha). congruence. }
  intros j m Hj Ha. simpl in *.
  destruct (decide (random_choice r ms = j)) as [->|Hne]; [done|].
  rewrite list_lookup_alter_ne in Hj by done.
  rewrite (Hdown j m Hj) in Ha. done.
Qed.

Lemma Mole_update_active now m :
  active (Mole_update now m) = true → Mole_update now m = m.
Proof.
  unfold Mole_update. by destruct (active m && (visible_ms m <? now - spawn_time m)).
Qed.

Lemma game_logic_up c now r st :
  up_is_active_mole st → up_is_active_mole (game_logic c now r st).
Proof.
  intros Hinv. unfold game_logic.
  set (st1 := if spawn_due c now st then _ else st).
  assert (up_is_active_mole st1) as Hinv1.
  { unfold st1. destruct (spawn_due c now st); [|done].
    exact (spawn_new_mole_up c now r st Hinv). }
  intros j m Hj Ha. simpl in *.
  rewrite list_lookup_fmap in Hj.
  destruct (mole_list st1 !! j) as [m0|] eqn:Hm0; simplify_eq/=.
  rewrite (Mole_update_active _ _ Ha) in Ha. by apply (Hinv1 j m0).
Qed.

Lemma frame_up c st f :
  up_is_active_mole st → up_is_active_mole (final_state (frame c st f)).
Proof.
  intros Hinv. unfold frame.
  assert (up_is_active_mole (game_over_check c (now_ms f) st)) as Hchk.
  { unfold game_over_check. by destruct (_ && _). }
  pose proof (handle_events_up c (events f) _ Hchk) as Hev.
  destruct (handle_events c _ (events f)) as [s|s|s]; cbn [final_state] in *;
    [|done..].
  by apply game_logic_up.
Qed.

Lemma run_up c fs : ∀ st,
  up_is_active_mole st → up_is_active_mole (final_state (run c st fs)).
Proof.
  induction fs as [|f fs IH]; intros st Hinv; simpl; [done|].
  pose proof (frame_up c st f Hinv) as Hf.
  destruct (frame c st f) as [s|s|s]; cbn [final_state] in *; [by apply IH|done..].
Qed.

Lemma setup_up e d t c st0 :
  run_game_setup e d t = Ok (c, st0) → up_is_active_mole st0.
Proof.
  intros Hsetup. unfold run_game_setup in Hsetup.
  destruct (dict_getitem DIFFICULTIES d) as [[[v i] l]|]; [|done].
  destruct create_holes as [ps r]. simplify_eq.
  intros j m Hj Ha. simpl in *.
  rewrite list_lookup_fmap in Hj.
  destruct (ps !! j); simplify_eq/=.
Qed.

(** C2, counterexample: in the Easy session mole 0 comes up in the first
    iteration and is hit in the second; from then on [active_mole] still
    refers to mole 0, which is down. *)
Lemma active_mole_refers_to_hit_mole :
  let st := final_state (run cfg_easy st_easy
              [frame1; mkFrame 3032 [MOUSEBUTTONDOWN 1 (200, 166)] 0]) in
  score st = 1 ∧ active_mole st = Some 0%nat ∧
  active <$> (mole_list st !! 0%nat) = Some false ∧
  ¬ (match active_mole st with
     | None => True
     | Some i => ∃ m, mole_list st !! i = Some m ∧ active m = true
     end).
Proof.
  cbv zeta. split; [by vm_compute|]. split; [by vm_compute|].
  split; [by vm_compute|].
  intros H. vm_compute in H. destruct H as (m & Hm & Ha). by simplify_eq.
Qed.

(** ** Spawning *)

Lemma game_over_check_vars c now st :
  mole_list (game_over_check c now st) = mole_list st ∧
  last_spawn_time (game_over_check c now st) = last_spawn_time st ∧
  active_mole (game_over_check c now st) = active_mole st.
Proof. unfold game_over_check. by destruct (_ && _). Qed.

Lemma activate_fresh now v m :
  activate now (set_visible_ms v m) =
  mkMole (base_radius m) v (use_sprite m) (rect m) true now.
Proof. done. Qed.

Lemma Mole_update_fresh now v m :
  0 ≤ v →
  Mole_update now (activate now (set_visible_ms v m)) =
  mkMole (base_radius m) v (use_sprite m) (rect m) true now.
Proof.
  intros Hv. unfold Mole_update. simpl.
  assert ((v <? now - now) = false) as -> by (apply Z.ltb_ge; lia). done.
Qed.

Lemma Mole_update_down now m : Mole_update now (deactivate m) = deactivate m.
Proof. done. Qed.

(** ** The moles of a session keep their places *)

Lemma alter_rects (g : Mole → Mole) i (ms : list Mole) :
  (∀ m, rect (g m) = rect m) → rect <$> alter g i ms = rect <$> ms.
Proof.
  intros Hg. apply list_eq. intros j. rewrite !list_lookup_fmap.
  destruct (decide (i = j)) as [->|Hne].
  - rewrite list_lookup_alter_eq. destruct (ms !! j); simpl; [|done].
    by rewrite Hg.
  - by rewrite list_lookup_alter_ne.
Qed.

Lemma hit_loop_rects p ms ms' :
  hit_loop p ms = Some ms' → rect <$> ms' = rect <$> ms.
Proof.
  intros Hh. destruct (hit_loop_Some_inv p _ _ Hh) as (i & m & Hi & _ & ->).
  rewrite list_fmap_insert. apply list_insert_id.
  by rewrite list_lookup_fmap, Hi.
Qed.

Lemma handle_event_rects c st ev :
  rects (final_state (handle_event c st ev)) = rects st.
Proof.
  unfold rects. destruct ev as [|b p|k|]; simpl; try done.
  - destruct (b =? 1); [|done].
    destruct (collidepoint _ p).
    { by destruct (has_click_sound (env c)). }
    destruct (negb (game_over st)); simpl; [|done].
    unfold handle_click.
    destruct (hit_loop p (mole_list st)) eqn:Hh; simpl; [|done].
    by apply hit_loop_rects with p.
  - by destruct (k =? K_ESCAPE).
Qed.

Lemma handle_events_rects c evs : ∀ st,
  rects (final_state (handle_events c st evs)) = rects st.
Proof.
  induction evs as [|ev evs IH]; intros st; simpl; [done|].
  pose proof (handle_event_rects c st ev) as Hev.
  destruct (handle_event c st ev) as [s|s|s]; simpl in *; [|done..].
  by rewrite IH.
Qed.

Lemma game_logic_rects c now r st :
  rects (game_logic c now r st) = rects st.
Proof.
  unfold rects, game_logic. simpl. rewrite <- list_fmap_compose.
  assert (∀ ms : list Mole, rect ∘ Mole_update now <$> ms = rect <$> ms) as Hup.
  { intros ms. apply list_fmap_ext. intros _ m _. simpl.
    unfold Mole_update. by destruct (_ && _). }
  rewrite Hup. destruct (spawn_due c now st); [|reflexivity].
  unfold spawn_new_mole. simpl.
  etrans; [apply alter_rects; intros m; reflexivity|].
  destruct (active_mole st); [apply alter_rects; intros m; reflexivity | done].
Qed.

Lemma frame_rects c st f :
  rects (final_state (frame c st f)) = rects st.
Proof.
  unfold frame.
  pose proof (handle_events_rects c (events f) (game_over_check c (now_ms f) st))
    as Hev.
  assert (rects (game_over_check c (now_ms f) st) = rects st) as Hchk.
  { unfold rects. by destruct (game_over_check_vars c (now_ms f) st) as (-> & _). }
  destruct (handle_events c _ (events f)) as [s|s|s]; cbn [final_state] in *;
    [|congruence..].
  rewrite game_logic_rects. congruence.
Qed.

Lemma run_rects c fs : ∀ st,
  rects (final_state (run c st fs)) = rects st.
Proof.
  induction fs as [|f fs IH]; intros st; simpl; [done|].
  pose proof (frame_rects c st f) as Hf.
  destruct (frame c st f) as [s|s|s]; cbn [final_state] in *; [|done..].
  by rewrite IH.
Qed.

(** X20. In every state of a session there are nine moles, mole [i]
    sitting on the square of side [2 * 44] centred at position [i] of the
    layout, whatever the difficulty, the theme, and the images that could
    or could not be loaded: sprites change what is drawn, not where a
    press counts. *)
Lemma session_moles e d t c st0 fs :
  run_game_setup e d t = Ok (c, st0) →
  let st := final_state (run c st0 fs) in
  length (mole_list st) = 9%nat ∧
  ∀ i m, mole_list st !! i = Some m →
         ∃ pos, fst create_holes !! i = Some pos ∧
                rect m = get_rect_center (44 * 2) (44 * 2) pos.
Proof.
  intros Hsetup. cbv zeta.
  assert (rects st0 = get_rect_center (44 * 2) (44 * 2) <$> fst create_holes)
    as Hr0.
  { unfold run_game_setup in Hsetup.
    destruct (dict_getitem DIFFICULTIES d) as [[[v i] l]|]; [|done].
    rewrite create_holes_value in *. simplify_eq. unfold rects. simpl.
    by destruct (mole_image_surface_raw _). }
  pose proof (run_rects c fs st0) as Hr. rewrite Hr0 in Hr.
  split.
  - pose proof (f_equal length Hr) as Hlen. unfold rects in Hlen.
    rewrite !length_fmap in Hlen. rewrite Hlen.
    by rewrite create_holes_value.
  - intros i m Hm.
    pose proof (f_equal (λ l, l !! i) Hr) as Hi. cbv beta in Hi.
    unfold rects in Hi. rewrite !list_lookup_fmap, Hm in Hi.
    destruct (fst create_holes !! i) as [pos|]; [|done].
    exists pos. split; [done|]. cbn [fmap option_fmap option_map] in Hi.
    congruence.
Qed.

Lemma session_moles_witness :
  length (mole_list st_one_up) = 9%nat.
Proof.
  exact (proj1 (session_moles env0 "Easy" "Default" cfg_easy st_easy [frame1]
                  eq_refl)).
Defined.

(** * Further properties of the loop *)

(** ** Leaving the session *)

Lemma handle_events_app c pre evs : ∀ st,
  handle_events c st (pre ++ evs) =
  match handle_events c st pre with
  | Continue st' => handle_events c st' evs
  | o => o
  end.
Proof.
  induction pre as [|ev pre IH]; intros st; simpl; [done|].
  destruct (handle_event c st ev); [apply IH | done | done].
Qed.

(** X1. A primary press on the Exit button returns to the menu from
    every state of the session, game over or not and whatever lies under
    the button: the click sound is played when one was given, and score,
    lives and moles are as the events before the press left them. *)
Theorem exit_click_returns_to_menu c st now pre rest r st1 p :
  handle_events c (game_over_check c now st) pre = Continue st1 →
  collidepoint (compute_exit_button_rect (env c)) p = true →
  ∃ st2,
    frame c st (mkFrame now (pre ++ MOUSEBUTTONDOWN 1 p :: rest) r) = ReturnToMenu st2 ∧
    cues st2 = cues st1 ++ (if has_click_sound (env c) then [ClickSound] else []) ∧
    score st2 = score st1 ∧ lives st2 = lives st1 ∧
    mole_list st2 = mole_list st1 ∧ game_over st2 = game_over st1.
Proof.
  intros Hpre Hexit.
  exists (if has_click_sound (env c) then play [ClickSound] st1 else st1).
  split.
  - unfold frame. cbn [now_ms events]. rewrite handle_events_app, Hpre.
    simpl. by rewrite Hexit.
  - destruct (has_click_sound (env c)); simpl; [done|].
    by rewrite app_nil_r.
Qed.

Lemma exit_click_returns_to_menu_witness :
  ∃ st2,
    frame cfg_easy st_over (mkFrame 33016 [miss_at; MOUSEBUTTONDOWN 1 (750, 90)] 0)
      = ReturnToMenu st2 ∧
    game_over st2 = true ∧ lives st2 = 3.
Proof.
  destruct (exit_click_returns_to_menu cfg_easy st_over 33016 [miss_at] [] 0
              st_over (750, 90) eq_refl eq_refl)
    as (st2 & Hf & _ & _ & Hl & _ & Hg).
  exists st2. split; [exact Hf|]. split; [exact Hg | exact Hl].
Defined.

(** X2. A QUIT event ends the process from every state of the session:
    the events before it in the batch are handled, nothing after it is,
    and no later iteration runs. *)
Theorem quit_ends_process c st f pre rest fs st1 :
  events f = pre ++ QUIT :: rest →
  handle_events c (game_over_check c (now_ms f) st) pre = Continue st1 →
  frame c st f = ProcessExit st1 ∧ run c st (f :: fs) = ProcessExit st1.
Proof.
  intros Hevs Hpre.
  assert (frame c st f = ProcessExit st1) as Hf.
  { unfold frame. by rewrite Hevs, handle_events_app, Hpre. }
  split; [done|]. simpl. by rewrite Hf.
Qed.

Lemma quit_ends_process_witness :
  run cfg_easy st_one_up
      [mkFrame 3032 [MOUSEBUTTONDOWN 1 (200, 166); QUIT; miss_at] 0;
       mkFrame 3048 [miss_at] 0]
  = ProcessExit (handle_click st_one_up (200, 166)).
Proof.
  exact (proj2 (quit_ends_process cfg_easy st_one_up
                  (mkFrame 3032 [MOUSEBUTTONDOWN 1 (200, 166); QUIT; miss_at] 0)
                  [MOUSEBUTTONDOWN 1 (200, 166)] [miss_at]
                  [mkFrame 3048 [miss_at] 0] _ eq_refl eq_refl)).
Defined.

(** ** Events the loop passes over *)

Lemma handle_events_inert c evs st :
  forallb is_inert evs = true → handle_events c st evs = Continue st.
Proof.
  induction evs as [|ev evs IH]; intros H; simpl in *; [done|].
  apply andb_true_iff in H as [Hev Hrest].
  destruct ev as [|b p|k|]; simpl in *; try done.
  - destruct (b =? 1); [done | by apply IH].
  - destruct (k =? K_ESCAPE); [done | by apply IH].
  - by apply IH.
Qed.

(** X3. Events that are neither QUIT, nor a primary press, nor the escape
    key (other mouse buttons, other keys, any other event) have no effect:
    mixed into a batch at any place they change nothing of what the
    iteration does. *)
Theorem inert_events_ignored c st now r evs1 inert evs2 :
  forallb is_inert inert = true →
  frame c st (mkFrame now (evs1 ++ inert ++ evs2) r) =
  frame c st (mkFrame now (evs1 ++ evs2) r).
Proof.
  intros Hin. unfold frame. cbn [now_ms events rnd].
  rewrite !handle_events_app.
  destruct (handle_events c (game_over_check c now st) evs1) as [s|s|s];
    [|done..].
  by rewrite handle_events_app, (handle_events_inert c inert s Hin).
Qed.

Lemma inert_events_ignored_witness :
  frame cfg_easy st_one_up
        (mkFrame 3032 ([miss_at] ++ [MOUSEBUTTONDOWN 3 (200, 166); KEYDOWN 13; OtherEvent]
                         ++ [MOUSEBUTTONDOWN 1 (200, 166)]) 0) =
  frame cfg_easy st_one_up
        (mkFrame 3032 ([miss_at] ++ [MOUSEBUTTONDOWN 1 (200, 166)]) 0).
Proof.
  exact (inert_events_ignored cfg_easy st_one_up 3032 0 [miss_at]
           [MOUSEBUTTONDOWN 3 (200, 166); KEYDOWN 13; OtherEvent]
           [MOUSEBUTTONDOWN 1 (200, 166)] eq_refl).
Defined.

(** ** Score and lives *)

Lemma hit_loop_count p ms ms' :
  hit_loop p ms = Some ms' →
  S (length (List.filter active ms')) = length (List.filter active ms).
Proof.
  revert ms'. induction ms as [|a ms IH]; intros ms' H; simpl in H; [done|].
  destruct (active a) eqn:Ha; simpl in H.
  - destruct (collidepoint (rect a) p).
    + simplify_eq. simpl. by rewrite Ha.
    + destruct (hit_loop p ms) as [l|]; simplify_eq/=.
      rewrite Ha. simpl. f_equal. by apply IH.
  - destruct (hit_loop p ms) as [l|]; simplify_eq/=.
    rewrite Ha. by apply IH.
Qed.

(** What one click does: a point and one mole down, or a life. *)
Lemma handle_click_accounting st p :
  (score (handle_click st p) = score st + 1 ∧
   lives (handle_click st p) = lives st ∧
   S (active_count (handle_click st p)) = active_count st) ∨
  (score (handle_click st p) = score st ∧
   lives (handle_click st p) = lives st - 1 ∧
   active_count (handle_click st p) = active_count st).
Proof.
  unfold handle_click, active_count.
  destruct (hit_loop p (mole_list st)) as [ms|] eqn:Hh; simpl.
  - left. by rewrite (hit_loop_count _ _ _ Hh).
  - by right.
Qed.

(** Closes one conjunct of the accounting lemmas. *)
Ltac by_accounting :=
  first [ lia | done | intros ? ? ?; simplify_eq; lia ].

Lemma handle_event_accounting c st ev :
  let st' := final_state (handle_event c st ev) in
  score st ≤ score st' ∧ lives st' ≤ lives st ∧
  (score st' - score st) + (lives st - lives st')
    ≤ (if is_press ev then 1 else 0) ∧
  score st' + Z.of_nat (active_count st') = score st + Z.of_nat (active_count st) ∧
  (∀ s, handle_event c st ev = Continue s → game_over st = false →
        (score s - score st) + (lives st - lives s) = if is_press ev then 1 else 0).
Proof.
  destruct ev as [|b p|k|]; simpl.
  - split_and!; by_accounting.
  - destruct (b =? 1) eqn:Hb; simpl; [|split_and!; by_accounting].
    destruct (collidepoint _ p).
    { destruct (has_click_sound (env c)); simpl; split_and!; by_accounting. }
    destruct (game_over st) eqn:Hg; simpl; [split_and!; by_accounting|].
    pose proof (handle_click_accounting st p) as Hc.
    split_and!; by_accounting.
  - destruct (k =? K_ESCAPE); simpl; split_and!; by_accounting.
  - split_and!; by_accounting.
Qed.

Lemma handle_events_accounting c evs : ∀ st,
  let st' := final_state (handle_events c st evs) in
  score st ≤ score st' ∧ lives st' ≤ lives st ∧
  (score st' - score st) + (lives st - lives st') ≤ Z.of_nat (presses evs) ∧
  score st' + Z.of_nat (active_count st') = score st + Z.of_nat (active_count st) ∧
  (∀ s, handle_events c st evs = Continue s → game_over st = false →
        (score s - score st) + (lives st - lives s) = Z.of_nat (presses evs)).
Proof.
  unfold presses.
  induction evs as [|ev evs IH]; intros st; simpl.
  { repeat split; try lia. intros s Hs _. simplify_eq. lia. }
  pose proof (handle_event_accounting c st ev) as Hev.
  pose proof (handle_event_frame_vars c st ev) as Hv.
  cbv zeta in Hev, Hv.
  destruct (handle_event c st ev) as [s1|s1|s1] eqn:Hh; cbn [final_state] in *.
  - specialize (IH s1). cbv zeta in IH.
    destruct Hev as (H1 & H2 & H3 & H4 & H5), IH as (I1 & I2 & I3 & I4 & I5).
    destruct Hv as (Hg & _).
    repeat split; try (destruct (is_press ev); simpl in *; lia).
    intros s Hs Hgo. specialize (H5 s1 eq_refl Hgo).
    specialize (I5 s Hs ltac:(congruence)).
    destruct (is_press ev); simpl in *; lia.
  - destruct Hev as (H1 & H2 & H3 & H4 & _).
    repeat split; try (destruct (is_press ev); simpl in *; lia). done.
  - destruct Hev as (H1 & H2 & H3 & H4 & _).
    repeat split; try (destruct (is_press ev); simpl in *; lia). done.
Qed.

Lemma game_over_check_score_lives c now st :
  score (game_over_check c now st) = score st ∧
  lives (game_over_check c now st) = lives st ∧
  active_count (game_over_check c now st) = active_count st.
Proof. unfold game_over_check. by destruct (_ && _). Qed.

(** X4. In an iteration that runs to its end with the game on, every
    primary press of the batch counts exactly once: it adds a point or it
    takes a life, so the points gained plus the lives lost equal the number
    of primary presses. With the game over, score and lives stay. *)
Theorem frame_press_accounting c st f st' :
  frame c st f = Continue st' →
  (game_over st' = false →
     (score st' - score st) + (lives st - lives st') = Z.of_nat (presses (events f)) ∧
     score st ≤ score st' ∧ lives st' ≤ lives st) ∧
  (game_over st' = true → score st' = score st ∧ lives st' = lives st).
Proof.
  intros Hf. unfold frame in Hf.
  set (s0 := game_over_check c (now_ms f) st) in *.
  destruct (game_over_check_score_lives c (now_ms f) st) as (Hs0 & Hl0 & _).
  fold s0 in Hs0, Hl0.
  destruct (handle_events c s0 (events f)) as [s1|s1|s1] eqn:Hev; [|done..].
  simplify_eq.
  destruct (game_logic_vars c (now_ms f) (rnd f) s1) as (-> & -> & -> & _).
  pose proof (handle_events_accounting c (events f) s0) as Hacc.
  pose proof (handle_events_frame_vars c (events f) s0) as Hv.
  cbv zeta in Hacc, Hv. rewrite Hev in Hacc, Hv. cbn [final_state] in *.
  destruct Hacc as (H1 & H2 & _ & _ & H5), Hv as (Hg & _).
  split.
  - intros Hg1. specialize (H5 s1 eq_refl ltac:(congruence)). lia.
  - intros Hg1.
    destruct (handle_events_over c (events f) s0 ltac:(congruence)) as (Hs & Hl & _).
    rewrite Hev in Hs, Hl. cbn [final_state] in *. lia.
Qed.

Lemma frame_press_accounting_witness :
  let st' := game_logic cfg_easy 3032 0
               (handle_click (handle_click st_one_up (200, 166)) (10, 300)) in
  (score st' - score st_one_up) + (lives st_one_up - lives st') = 2.
Proof.
  cbv zeta.
  destruct (frame_press_accounting cfg_easy st_one_up
              (mkFrame 3032 [MOUSEBUTTONDOWN 1 (200, 166); miss_at] 0) _ eq_refl)
    as [H _].
  destruct (H eq_refl) as [Heq _]. exact Heq.
Defined.

Lemma frame_accounting c st f :
  let st' := final_state (frame c st f) in
  score st ≤ score st' ∧ lives st' ≤ lives st ∧
  (score st' - score st) + (lives st - lives st') ≤ Z.of_nat (presses (events f)) ∧
  score st' - score st ≤ Z.of_nat (active_count st).
Proof.
  cbv zeta. unfold frame.
  set (s0 := game_over_check c (now_ms f) st).
  destruct (game_over_check_score_lives c (now_ms f) st) as (Hs0 & Hl0 & Hc0).
  fold s0 in Hs0, Hl0, Hc0.
  pose proof (handle_events_accounting c (events f) s0) as Hacc.
  cbv zeta in Hacc.
  destruct (handle_events c s0 (events f)) as [s1|s1|s1]; cbn [final_state] in *;
    try lia.
  destruct (game_logic_vars c (now_ms f) (rnd f) s1) as (-> & -> & _). lia.
Qed.

(** X5. Over any stretch of a session the score never goes down and lives
    never goes up, and the points gained plus the lives lost are at most
    the number of primary presses received. *)
Theorem score_and_lives_bounded_by_presses c fs : ∀ st,
  let st' := final_state (run c st fs) in
  score st ≤ score st' ∧ lives st' ≤ lives st ∧
  (score st' - score st) + (lives st - lives st') ≤ Z.of_nat (total_presses fs).
Proof.
  unfold total_presses.
  induction fs as [|f fs IH]; intros st; [simpl; lia|].
  change (sum_list ((λ f, presses (events f)) <$> f :: fs))
    with (presses (events f) + sum_list ((λ f, presses (events f)) <$> fs))%nat.
  cbn [run]. rewrite Nat2Z.inj_add.
  pose proof (frame_accounting c st f) as Hf. cbv zeta in Hf.
  destruct (frame c st f) as [s|s|s]; cbn [final_state] in *; try lia.
  specialize (IH s). cbv zeta in IH. lia.
Qed.

(** X6. A session scores at most one point per iteration, however many
    presses the batch holds: only one mole can be up, a hit puts it down,
    and nothing comes up before the batch is through. From any state of
    a session one more iteration adds at most one point (the points it
    adds are at most the number of moles up when it starts), and so the
    score after any number of iterations is at most that number. *)
Theorem one_point_per_frame e d t c st0 fs :
  run_game_setup e d t = Ok (c, st0) →
  score (final_state (run c st0 fs)) ≤ Z.of_nat (length fs) ∧
  (∀ f, score (final_state (frame c (final_state (run c st0 fs)) f))
          ≤ score (final_state (run c st0 fs))
            + Z.of_nat (active_count (final_state (run c st0 fs))) ∧
        score (final_state (frame c (final_state (run c st0 fs)) f))
          ≤ score (final_state (run c st0 fs)) + 1).
Proof.
  intros Hsetup. split; cycle 1.
  { intros f.
    pose proof (run_up c fs st0 (setup_up e d t c st0 Hsetup)) as Hinv.
    pose proof (up_is_active_mole_count _ Hinv) as Hcount.
    pose proof (frame_accounting c (final_state (run c st0 fs)) f)
      as (_ & _ & _ & Hf).
    lia. }
  assert (∀ fs st, up_is_active_mole st →
            score (final_state (run c st fs)) ≤ score st + Z.of_nat (length fs))
    as Hgen.
  { clear. induction fs as [|f fs IH]; intros st Hinv; simpl; [lia|].
    pose proof (frame_accounting c st f) as (_ & _ & _ & Hf).
    pose proof (up_is_active_mole_count st Hinv) as Hcount.
    pose proof (frame_up c st f Hinv) as Hinv'.
    destruct (frame c st f) as [s|s|s]; cbn [final_state] in *; try lia.
    specialize (IH s Hinv'). lia. }
  specialize (Hgen fs st0 (setup_up e d t c st0 Hsetup)).
  assert (score st0 = 0) as Hs0.
  { unfold run_game_setup in Hsetup.
    destruct (dict_getitem DIFFICULTIES d) as [[[v i] l]|]; [|done].
    destruct create_holes. by simplify_eq. }
  lia.
Qed.

Lemma one_point_per_frame_witness :
  score (final_state (run cfg_easy st_easy
    [frame1;
     mkFrame 3032 [MOUSEBUTTONDOWN 1 (200, 166); MOUSEBUTTONDOWN 1 (200, 166)] 0]))
  ≤ 2 ∧
  score (final_state (frame cfg_easy st_one_up
    (mkFrame 3032 [MOUSEBUTTONDOWN 1 (200, 166); MOUSEBUTTONDOWN 1 (200, 166)] 0)))
  ≤ score st_one_up + 1.
Proof.
  split.
  - exact (proj1 (one_point_per_frame env0 "Easy" "Default" cfg_easy st_easy
             [frame1;
              mkFrame 3032 [MOUSEBUTTONDOWN 1 (200, 166); MOUSEBUTTONDOWN 1 (200, 166)] 0]
             eq_refl)).
  - exact (proj2 (proj2 (one_point_per_frame env0 "Easy" "Default" cfg_easy st_easy
             [frame1] eq_refl)
             (mkFrame 3032 [MOUSEBUTTONDOWN 1 (200, 166); MOUSEBUTTONDOWN 1 (200, 166)] 0))).
Defined.

(** ** The geometry of the board *)

(** The squares of side [2 * r] around the centres of two different cells
    share no point, as long as a square is no larger than a cell. *)
Lemma cell_squares_disjoint mx my cw ch cols r i j p :
  (0 < cols)%nat → 0 ≤ r → r * 2 ≤ cw → r * 2 ≤ ch → i ≠ j →
  collidepoint (get_rect_center (r * 2) (r * 2) (cell_centre mx my cw ch cols i)) p = true →
  collidepoint (get_rect_center (r * 2) (r * 2) (cell_centre mx my cw ch cols j)) p = true →
  False.
Proof.
  intros Hcols Hr Hcw Hch Hij Hi Hj.
  apply collidepoint_centre in Hi, Hj. unfold cell_centre in *. simpl in *.
  assert ((i mod cols)%nat ≠ (j mod cols)%nat ∨ (i / cols)%nat ≠ (j / cols)%nat)
    as [Hc|Hc].
  { destruct (decide ((i mod cols)%nat = (j mod cols)%nat)) as [Hm|]; [|by left].
    right. intros Hd. apply Hij.
    rewrite (Nat.div_mod_eq i cols), (Nat.div_mod_eq j cols). congruence. }
  - set (ci := Z.of_nat (i mod cols)) in *. set (cj := Z.of_nat (j mod cols)) in *.
    assert (ci ≠ cj) by (unfold ci, cj; lia). nia.
  - set (ri := Z.of_nat (i / cols)) in *. set (rj := Z.of_nat (j / cols)) in *.
    assert (ri ≠ rj) by (unfold ri, rj; lia). nia.
Qed.

(** Where the moles of a session are: mole [i] on the square of side
    [2 * 44] around the centre of cell [i] of the 3 x 3 grid. *)
Lemma session_rect_lookup e d t c st0 fs i m :
  run_game_setup e d t = Ok (c, st0) →
  mole_list (final_state (run c st0 fs)) !! i = Some m →
  (i < 9)%nat ∧ env c = e ∧
  rect m = get_rect_center (44 * 2) (44 * 2)
             (cell_centre margin_x margin_y cell_w cell_h 3 i).
Proof.
  intros Hsetup Hm.
  assert (rects st0 = get_rect_center (44 * 2) (44 * 2) <$> fst create_holes
          ∧ env c = e) as [Hr0 He].
  { unfold run_game_setup in Hsetup.
    destruct (dict_getitem DIFFICULTIES d) as [[[v k] l]|]; [|done].
    rewrite create_holes_value in *. simplify_eq. unfold rects. simpl.
    split; [|done]. by destruct (mole_image_surface_raw _). }
  pose proof (run_rects c fs st0) as Hr. rewrite Hr0 in Hr.
  unfold create_holes, GRID_ROWS, GRID_COLS in Hr. cbn [fst] in Hr.
  rewrite grid_positions_row_major in Hr.
  pose proof (f_equal (λ l, l !! i) Hr) as Hi. cbv beta in Hi.
  unfold rects in Hi. rewrite !list_lookup_fmap, Hm in Hi.
  destruct (decide (i < 9)%nat) as [Hlt|Hge].
  - rewrite lookup_seq_lt in Hi by done. simpl in Hi.
    split; [done|]. split; [done|]. congruence.
  - rewrite lookup_seq_ge in Hi by lia. done.
Qed.

(** X7. In every state of a session the squares of the nine moles are
    pairwise disjoint: a press point lies on at most one mole, so the
    order in which the click handler tests the moles never decides which
    mole is hit. *)
Theorem press_on_at_most_one_mole e d t c st0 fs p i j mi mj :
  run_game_setup e d t = Ok (c, st0) →
  mole_list (final_state (run c st0 fs)) !! i = Some mi →
  mole_list (final_state (run c st0 fs)) !! j = Some mj →
  collidepoint (rect mi) p = true →
  collidepoint (rect mj) p = true →
  i = j.
Proof.
  intros Hsetup Hi Hj Hpi Hpj.
  destruct (session_rect_lookup e d t c st0 fs i mi Hsetup Hi) as (_ & _ & Hri).
  destruct (session_rect_lookup e d t c st0 fs j mj Hsetup Hj) as (_ & _ & Hrj).
  rewrite Hri in Hpi. rewrite Hrj in Hpj.
  destruct (decide (i = j)) as [|Hne]; [done|]. exfalso.
  apply (cell_squares_disjoint margin_x margin_y cell_w cell_h 3 44 i j p);
    try done; try lia; by vm_compute.
Qed.

Lemma press_on_at_most_one_mole_witness :
  collidepoint (get_rect_center (44 * 2) (44 * 2) (200, 166)) (210, 170) = true ∧
  0%nat = 0%nat.
Proof.
  split; [reflexivity|].
  exact (press_on_at_most_one_mole env0 "Easy" "Default" cfg_easy st_easy [frame1]
           (210, 170) 0 0 _ _ eq_refl st_one_up_mole0 st_one_up_mole0
           eq_refl eq_refl).
Defined.

(** X8. When the rendered Exit label is at most 40 high or at most 126
    wide, the Exit button overlaps no mole: a press on a mole is never
    taken for a press on Exit, in any state of a session. *)
Theorem exit_button_clear_of_moles e d t c st0 fs p i m :
  run_game_setup e d t = Ok (c, st0) →
  snd (exit_label_size e) ≤ 40 ∨ fst (exit_label_size e) ≤ 126 →
  mole_list (final_state (run c st0 fs)) !! i = Some m →
  collidepoint (rect m) p = true →
  collidepoint (compute_exit_button_rect (env c)) p = false.
Proof.
  intros Hsetup Hsize Hi Hp.
  destruct (session_rect_lookup e d t c st0 fs i m Hsetup Hi) as (Hlt & -> & Hr).
  rewrite Hr in Hp. apply collidepoint_centre in Hp.
  unfold cell_centre in Hp. simpl in Hp.
  change margin_x with 100 in Hp. change margin_y with 100 in Hp.
  change cell_w with 200 in Hp. change cell_h with 133 in Hp.
  change (200 / 2) with 100 in Hp. change (133 / 2) with 66 in Hp.
  apply not_true_is_false. unfold collidepoint, compute_exit_button_rect.
  cbn [left top width height]. change WINDOW_WIDTH with 800.
  rewrite !andb_true_iff, !Z.leb_le, !Z.ltb_lt.
  assert (0 ≤ Z.of_nat (i mod 3) ≤ 2).
  { pose proof (Nat.mod_upper_bound i 3). lia. }
  assert (0 ≤ Z.of_nat (i / 3)) by lia.
  lia.
Qed.

Lemma exit_button_clear_of_moles_witness :
  collidepoint (compute_exit_button_rect (env cfg_easy)) (243, 122) = false.
Proof.
  refine (exit_button_clear_of_moles env0 "Easy" "Default" cfg_easy st_easy [frame1]
            (243, 122) 0 _ eq_refl _ st_one_up_mole0 eq_refl).
  left. vm_compute. congruence.
Defined.

(** ** Timing *)

Lemma DIFFICULTIES_presets d v i l :
  DIFFICULTIES !! d = Some (v, i, l) →
  (v, i, l) = (1200, 900, 30) ∨ (v, i, l) = (900, 700, 25) ∨
  (v, i, l) = (650, 550, 20).
Proof.
  unfold DIFFICULTIES. intros H.
  apply lookup_insert_Some in H as [[_ H]|[_ H]]; [by left|].
  apply lookup_insert_Some in H as [[_ H]|[_ H]]; [by right; left|].
  apply lookup_insert_Some in H as [[_ H]|[_ H]]; [by right; right|].
  by rewrite lookup_empty in H.
Qed.

(** The timing of a session that started: positive, and a mole stays up
    longer than the spawn interval. *)
Lemma setup_timing e d t c st0 :
  run_game_setup e d t = Ok (c, st0) →
  0 < spawn_interval_ms c < mole_visible_ms c ∧ 0 < game_length_seconds c ∧
  env c = e ∧ score st0 = 0 ∧ lives st0 = 3 ∧ last_spawn_time st0 = 0 ∧
  game_over st0 = false.
Proof.
  intros Hsetup. unfold run_game_setup, dict_getitem in Hsetup.
  destruct (DIFFICULTIES !! d) as [[[v i] l]|] eqn:Hd; [|done].
  destruct create_holes. simplify_eq. simpl.
  destruct (DIFFICULTIES_presets d v i l Hd) as [?|[?|?]]; simplify_eq;
    split_and!; first [done | lia].
Qed.

Lemma deactivated_all_down st j m :
  up_is_active_mole st →
  match active_mole st with
  | Some i => alter deactivate i (mole_list st)
  | None => mole_list st
  end !! j = Some m →
  active m = false.
Proof.
  intros Hinv Hj. destruct (active m) eqn:Ha; [|done]. exfalso.
  destruct (active_mole st) as [i|] eqn:Hi.
  - destruct (decide (i = j)) as [->|Hne].
    + rewrite list_lookup_alter_eq in Hj.
      destruct (mole_list st !! j); simplify_eq/=.
    + rewrite list_lookup_alter_ne in Hj by done.
      pose proof (Hinv j m Hj Ha). congruence.
  - pose proof (Hinv j m Hj Ha). congruence.
Qed.

(** After a spawn the only mole up is the new one. *)
Lemma spawn_new_mole_only c now r st j m :
  up_is_active_mole st →
  mole_list (spawn_new_mole c now r st) !! j = Some m → active m = true →
  spawn_time m = now ∧ visible_ms m = mole_visible_ms c.
Proof.
  intros Hinv Hj Ha. unfold spawn_new_mole in Hj. cbn [mole_list] in Hj.
  set (ms := match active_mole st with
             | Some i => alter deactivate i (mole_list st)
             | None => mole_list st
             end) in *.
  destruct (decide (random_choice r ms = j)) as [<-|Hne].
  - rewrite list_lookup_alter_eq in Hj.
    destruct (ms !! random_choice r ms); simplify_eq/=. done.
  - rewrite list_lookup_alter_ne in Hj by done.
    rewrite (deactivated_all_down st j m Hinv Hj) in Ha. done.
Qed.

Lemma handle_click_since c st p :
  up_since_last_spawn c st → up_since_last_spawn c (handle_click st p).
Proof.
  intros Hinv. unfold handle_click.
  destruct (hit_loop p (mole_list st)) as [ms|] eqn:Hh; [|exact Hinv].
  destruct (hit_loop_Some_inv p _ _ Hh) as (i & m & Hi & _ & ->).
  intros j m' Hj Ha. simpl in *.
  destruct (decide (i = j)) as [->|Hne].
  - rewrite list_lookup_insert_eq in Hj by (by eapply lookup_lt_Some).
    by simplify_eq.
  - rewrite list_lookup_insert_ne in Hj by done. by apply (Hinv j m').
Qed.

Lemma handle_events_since c evs : ∀ st,
  up_since_last_spawn c st →
  up_since_last_spawn c (final_state (handle_events c st evs)).
Proof.
  induction evs as [|ev evs IH]; intros st Hinv; simpl; [done|].
  assert (up_since_last_spawn c (final_state (handle_event c st ev))) as Hev.
  { destruct ev as [|b p|k|]; simpl; try done.
    - destruct (b =? 1); [|done].
      destruct (collidepoint _ p).
      { by destruct (has_click_sound (env c)). }
      destruct (negb (game_over st)); simpl; [|done].
      by apply handle_click_since.
    - by destruct (k =? K_ESCAPE). }
  destruct (handle_event c st ev) as [s|s|s]; simpl in *; [by apply IH|done..].
Qed.

Lemma game_logic_since c now r st :
  up_is_active_mole st → up_since_last_spawn c st →
  up_since_last_spawn c (game_logic c now r st).
Proof.
  intros Hup Hinv j m Hj Ha. unfold game_logic in *.
  destruct (spawn_due c now st); cbn [mole_list set_mole_list last_spawn_time] in *.
  - rewrite list_lookup_fmap in Hj.
    destruct (mole_list (spawn_new_mole c now r st) !! j) as [m0|] eqn:Hm0;
      [|done].
    cbn [fmap option_fmap option_map] in Hj. injection Hj as <-.
    pose proof (Mole_update_active _ _ Ha) as Heq. rewrite Heq in Ha |- *.
    exact (spawn_new_mole_only c now r st j m0 Hup Hm0 Ha).
  - rewrite list_lookup_fmap in Hj.
    destruct (mole_list st !! j) as [m0|] eqn:Hm0; [|done].
    cbn [fmap option_fmap option_map] in Hj. injection Hj as <-.
    pose proof (Mole_update_active _ _ Ha) as Heq. rewrite Heq in Ha |- *. exact (Hinv j m0 Hm0 Ha).
Qed.

Lemma run_since c fs : ∀ st,
  up_is_active_mole st → up_since_last_spawn c st →
  up_since_last_spawn c (final_state (run c st fs)).
Proof.
  induction fs as [|f fs IH]; intros st Hup Hinv; simpl; [done|].
  pose proof (frame_up c st f Hup) as Hup'.
  assert (up_since_last_spawn c (final_state (frame c st f))) as Hinv'.
  { unfold frame.
    assert (up_since_last_spawn c (game_over_check c (now_ms f) st)) as Hchk.
    { unfold game_over_check. by destruct (_ && _). }
    assert (up_is_active_mole (game_over_check c (now_ms f) st)) as Hchk'.
    { unfold game_over_check. by destruct (_ && _). }
    pose proof (handle_events_since c (events f) _ Hchk) as Hev.
    pose proof (handle_events_up c (events f) _ Hchk') as Hev'.
    destruct (handle_events c _ (events f)) as [s|s|s]; cbn [final_state] in *;
      [|done..].
    by apply game_logic_since. }
  destruct (frame c st f) as [s|s|s]; cbn [final_state] in *; [by apply IH|done..].
Qed.

Lemma setup_since e d t c st0 :
  run_game_setup e d t = Ok (c, st0) → up_since_last_spawn c st0.
Proof.
  intros Hsetup i m Hi Ha.
  pose proof (setup_up e d t c st0 Hsetup i m Hi Ha) as Hn.
  unfold run_game_setup in Hsetup.
  destruct (dict_getitem DIFFICULTIES d) as [[[v k] l]|]; [|done].
  destruct create_holes. by simplify_eq.
Qed.

(** X9. While the game is on, no mole times out. In every session the
    spawn interval is shorter than the visible time, so the pass of
    [Mole.update] over the moles at the end of an iteration changes
    nothing: a mole that is up stays up until it is hit or the next spawn
    replaces it. (The expiry only takes effect once the game is over.) *)
Theorem no_expiry_while_game_is_on e d t c st0 fs st f st1 :
  run_game_setup e d t = Ok (c, st0) →
  run c st0 fs = Continue st →
  handle_events c (game_over_check c (now_ms f) st) (events f) = Continue st1 →
  game_over st1 = false →
  mole_list (game_logic c (now_ms f) (rnd f) st1) =
  mole_list (if spawn_due c (now_ms f) st1
             then spawn_new_mole c (now_ms f) (rnd f) st1
             else st1).
Proof.
  intros Hsetup Hrun Hev Hg.
  destruct (setup_timing e d t c st0 Hsetup) as (Hiv & _).
  pose proof (run_up c fs st0 (setup_up e d t c st0 Hsetup)) as Hup.
  pose proof (run_since c fs st0 (setup_up e d t c st0 Hsetup)
                (setup_since e d t c st0 Hsetup)) as Hsince.
  rewrite Hrun in Hup, Hsince. cbn [final_state] in *.
  assert (up_is_active_mole (game_over_check c (now_ms f) st)) as Hup0.
  { unfold game_over_check. by destruct (_ && _). }
  assert (up_since_last_spawn c (game_over_check c (now_ms f) st)) as Hsince0.
  { unfold game_over_check. by destruct (_ && _). }
  pose proof (handle_events_up c (events f) _ Hup0) as Hup1.
  pose proof (handle_events_since c (events f) _ Hsince0) as Hsince1.
  rewrite Hev in Hup1, Hsince1. cbn [final_state] in *.
  unfold game_logic.
  destruct (spawn_due c (now_ms f) st1) eqn:Hdue;
    cbn [mole_list set_mole_list].
  - rewrite <- (list_fmap_id (mole_list (spawn_new_mole _ _ _ _))) at 2.
    apply list_fmap_ext. intros j m Hj. simpl.
    unfold Mole_update. destruct (active m) eqn:Ha; [|done]. simpl.
    destruct (spawn_new_mole_only c (now_ms f) (rnd f) st1 j m Hup1 Hj Ha)
      as [-> ->].
    assert ((mole_visible_ms c <? now_ms f - now_ms f) = false) as ->
      by (apply Z.ltb_ge; lia).
    done.
  - rewrite <- (list_fmap_id (mole_list st1)) at 2.
    apply list_fmap_ext. intros j m Hj. simpl.
    unfold Mole_update. destruct (active m) eqn:Ha; [|done]. simpl.
    destruct (Hsince1 j m Hj Ha) as [-> ->].
    unfold spawn_due in Hdue. rewrite Hg in Hdue. simpl in Hdue.
    apply Z.ltb_ge in Hdue.
    assert ((mole_visible_ms c <? now_ms f - last_spawn_time st1) = false) as ->
      by (apply Z.ltb_ge; lia).
    done.
Qed.

Lemma no_expiry_while_game_is_on_witness :
  mole_list (game_logic cfg_easy 3916 0 st_one_up) = mole_list st_one_up.
Proof.
  exact (no_expiry_while_game_is_on env0 "Easy" "Default" cfg_easy st_easy
           [frame1] st_one_up (mkFrame 3916 [] 0) st_one_up
           eq_refl eq_refl eq_refl eq_refl).
Defined.

Lemma Mole_update_active_bound now m :
  active (Mole_update now m) = true →
  Mole_update now m = m ∧ now - spawn_time m ≤ visible_ms m.
Proof.
  unfold Mole_update. intros H.
  destruct (active m) eqn:Ha; simpl in *; [|by rewrite Ha in H].
  destruct (visible_ms m <? now - spawn_time m) eqn:Hlt; [done|].
  apply Z.ltb_ge in Hlt. done.
Qed.

(** One iteration with the game over: nothing is spawned, and the moles
    only pass through [Mole.update]. *)
Lemma frame_over_step c st f :
  game_over st = true →
  game_over (final_state (frame c st f)) = true ∧
  last_spawn_time (final_state (frame c st f)) = last_spawn_time st ∧
  active_mole (final_state (frame c st f)) = active_mole st ∧
  match frame c st f with
  | Continue s => mole_list s = Mole_update (now_ms f) <$> mole_list st
  | o => mole_list (final_state o) = mole_list st
  end.
Proof.
  intros Hg. unfold frame.
  assert (game_over_check c (now_ms f) st = st) as ->.
  { unfold game_over_check. rewrite Hg. by rewrite andb_false_r. }
  destruct (handle_events_over c (events f) st Hg) as (_ & _ & Hml).
  destruct (handle_events_frame_vars c (events f) st) as (Hg1 & Hl1 & Ha1 & _).
  destruct (handle_events c st (events f)) as [s|s|s]; cbn [final_state] in *;
    [|by rewrite Hg1, Hg..].
  unfold game_logic, spawn_due. rewrite Hg1, Hg. simpl.
  rewrite Hml. split_and!; congruence.
Qed.

(** A mole that is up after a stretch with the game over was up,
    unchanged, before it. *)
Lemma run_over_up_moles c fs : ∀ st j m,
  game_over st = true →
  mole_list (final_state (run c st fs)) !! j = Some m → active m = true →
  mole_list st !! j = Some m ∧
  last_spawn_time (final_state (run c st fs)) = last_spawn_time st ∧
  active_mole (final_state (run c st fs)) = active_mole st ∧
  (∀ st', run c st fs = Continue st' →
          Forall (λ f, now_ms f - spawn_time m ≤ visible_ms m) fs).
Proof.
  induction fs as [|f fs IH]; intros st j m Hg Hj Ha; simpl in *.
  { split_and!; first [done | intros; constructor]. }
  destruct (frame_over_step c st f Hg) as (Hg1 & Hl1 & Ha1 & Hml).
  destruct (frame c st f) as [s|s|s]; cbn [final_state] in *.
  - destruct (IH s j m Hg1 Hj Ha) as (Hs & Hl & Hact & Hall).
    rewrite Hml, list_lookup_fmap in Hs.
    destruct (mole_list st !! j) as [m0|]; [|done].
    cbn [fmap option_fmap option_map] in Hs. injection Hs as Hs.
    rewrite <- Hs in Ha.
    destruct (Mole_update_active_bound _ _ Ha) as [Heq Hbound].
    rewrite Heq in Hs. subst m0.
    split_and!; [done | congruence | congruence |].
    intros st' Hrun. constructor; [done | by apply (Hall st')].
  - rewrite Hml in Hj. by split_and!.
  - rewrite Hml in Hj. by split_and!.
Qed.

(** With the game over the variables of the spawn keep their values, and
    the moles are what the [Mole.update] passes make of them. *)
Lemma run_over_vars c fs : ∀ st,
  game_over st = true →
  game_over (final_state (run c st fs)) = true ∧
  last_spawn_time (final_state (run c st fs)) = last_spawn_time st ∧
  active_mole (final_state (run c st fs)) = active_mole st ∧
  (∀ st', run c st fs = Continue st' →
          mole_list st' =
          foldl (λ ms f, Mole_update (now_ms f) <$> ms) (mole_list st) fs).
Proof.
  induction fs as [|f fs IH]; intros st Hg; simpl.
  { split_and!; try done. intros st' Hst. by simplify_eq. }
  destruct (frame_over_step c st f Hg) as (Hg1 & Hl1 & Ha1 & Hml).
  destruct (frame c st f) as [s|s|s]; cbn [final_state] in *.
  - destruct (IH s Hg1) as (Hg2 & Hl2 & Ha2 & Hfold).
    split_and!; [done | congruence | congruence |].
    intros st' Hrun. rewrite (Hfold st' Hrun). by rewrite Hml.
  - by split_and!.
  - by split_and!.
Qed.

Lemma Mole_update_in_time now m :
  now - spawn_time m ≤ visible_ms m → Mole_update now m = m.
Proof.
  intros Hle. unfold Mole_update.
  assert ((visible_ms m <? now - spawn_time m) = false) as ->
    by (apply Z.ltb_ge; lia).
  by rewrite andb_false_r.
Qed.

(** X10. Once the game is over nothing comes up any more. Over any later
    stretch of the session the game stays over and no spawn takes place:
    [last_spawn_time] and [active_mole] keep their values, and the moles
    only pass through [Mole.update]. So a mole that is up at the end of
    the stretch was up, unchanged, when it began, and every iteration that
    ran to its end came no later than [visible_ms] after the mole was put
    up; and a mole for which every iteration came that early is at the
    end what it was at the beginning. *)
Theorem after_game_over_moles_only_go_down c fs st :
  game_over st = true →
  game_over (final_state (run c st fs)) = true ∧
  last_spawn_time (final_state (run c st fs)) = last_spawn_time st ∧
  active_mole (final_state (run c st fs)) = active_mole st ∧
  (∀ st', run c st fs = Continue st' →
          mole_list st' =
          foldl (λ ms f, Mole_update (now_ms f) <$> ms) (mole_list st) fs) ∧
  (∀ j m, mole_list (final_state (run c st fs)) !! j = Some m →
          active m = true →
          mole_list st !! j = Some m ∧
          (∀ st', run c st fs = Continue st' →
                  Forall (λ f, now_ms f - spawn_time m ≤ visible_ms m) fs)) ∧
  (∀ st' j m, run c st fs = Continue st' →
              mole_list st !! j = Some m →
              Forall (λ f, now_ms f - spawn_time m ≤ visible_ms m) fs →
              mole_list st' !! j = Some m).
Proof.
  intros Hg.
  destruct (run_over_vars c fs st Hg) as (Hg' & Hl & Ha & Hfold).
  split_and!; try done.
  - intros j m Hj Hact.
    destruct (run_over_up_moles c fs st j m Hg Hj Hact) as (Hs & _ & _ & Hall).
    done.
  - intros st' j m Hrun Hj Hall. rewrite (Hfold st' Hrun).
    clear Hrun Hfold Hg' Hl Ha Hg.
    revert Hj. generalize (mole_list st) as ms.
    induction Hall as [|f fs Hf Hall IH]; intros ms Hj; simpl; [done|].
    apply IH. rewrite list_lookup_fmap, Hj. simpl.
    by rewrite Mole_update_in_time.
Qed.

Lemma after_game_over_moles_only_go_down_witness :
  mole_list st_lost !! 0%nat =
    Some (mkMole 44 1200 false (get_rect_center (44 * 2) (44 * 2) (200, 166)) true 3016) ∧
  active_mole (final_state (run cfg_easy st_lost
                 [mkFrame 3064 [miss_at] 5; mkFrame 4000 [] 6])) = Some 0%nat ∧
  last_spawn_time (final_state (run cfg_easy st_lost
                 [mkFrame 3064 [miss_at] 5; mkFrame 4000 [] 6])) = 3016.
Proof.
  destruct (after_game_over_moles_only_go_down cfg_easy
              [mkFrame 3064 [miss_at] 5; mkFrame 4000 [] 6] st_lost eq_refl)
    as (_ & Hl & Ha & _ & Hup & _).
  split_and!; [|exact Ha|exact Hl].
  exact (proj1 (Hup 0%nat _ eq_refl eq_refl)).
Defined.

Lemma filter_active_ge_1 (ms : list Mole) k m :
  ms !! k = Some m → active m = true → (1 ≤ length (List.filter active ms))%nat.
Proof.
  intros Hk Ha.
  assert (In m (List.filter active ms)) as Hin.
  { apply filter_In. split; [|done].
    apply list_elem_of_In, list_elem_of_lookup. by exists k. }
  destruct (List.filter active ms); [done | simpl; lia].
Qed.

(** X11. The first iteration of a session puts a mole up. With
    [last_spawn_time] starting at 0, any clock reading beyond the spawn
    interval (and within the playing time) makes the first iteration
    spawn: if it runs to its end, exactly one mole is up afterwards, the
    one [random.choice] picked. No point can be scored in it, no mole being
    up while its events are handled: every primary press costs a life. *)
Theorem first_frame_spawns e d t c st0 f st' :
  run_game_setup e d t = Ok (c, st0) →
  spawn_interval_ms c < now_ms f →
  now_ms f - start_time_ms e ≤ (game_length_seconds c - 1) * 1000 →
  frame c st0 f = Continue st' →
  active_count st' = 1%nat ∧
  active_mole st' = Some (rnd f mod 9)%nat ∧
  last_spawn_time st' = now_ms f ∧
  score st' = 0 ∧
  lives st' = 3 - Z.of_nat (presses (events f)).
Proof.
  intros Hsetup Hnow Htime Hf.
  destruct (setup_timing e d t c st0 Hsetup)
    as (Hiv & HL & He & Hs0 & Hl0 & Hls0 & Hg0).
  pose proof (setup_up e d t c st0 Hsetup) as Hup0.
  assert (length (mole_list st0) = 9%nat) as Hlen0.
  { unfold run_game_setup in Hsetup.
    destruct (dict_getitem DIFFICULTIES d) as [[[v k] l]|]; [|done].
    rewrite create_holes_value in Hsetup. by simplify_eq. }
  assert (active_count st0 = 0%nat) as Hc0.
  { unfold active_count.
    destruct (List.filter active (mole_list st0)) as [|b l] eqn:Hfl; [done|].
    assert (In b (List.filter active (mole_list st0))) as Hb by (rewrite Hfl; by left).
    apply filter_In in Hb as [Hin Hact].
    apply list_elem_of_In, list_elem_of_lookup in Hin as [j Hj].
    pose proof (setup_up e d t c st0 Hsetup j b Hj Hact) as Hsome.
    unfold run_game_setup in Hsetup.
    destruct (dict_getitem DIFFICULTIES d) as [[[v k] l']|]; [|done].
    destruct create_holes. by simplify_eq. }
  assert (game_over_check c (now_ms f) st0 = st0) as Hchk.
  { unfold game_over_check. rewrite Hg0, Hl0.
    assert (0 < remaining_s c (now_ms f)) as Hrem.
    { apply remaining_s_pos_iff. rewrite He. lia. }
    assert ((remaining_s c (now_ms f) <=? 0) = false) as ->
      by (apply Z.leb_gt; lia).
    done. }
  unfold frame in Hf. rewrite Hchk in Hf.
  destruct (handle_events c st0 (events f)) as [s1|s1|s1] eqn:Hev; [|done..].
  injection Hf as <-.
  pose proof (handle_events_accounting c (events f) st0) as Hacc.
  pose proof (handle_events_frame_vars c (events f) st0) as Hv.
  pose proof (handle_events_up c (events f) st0 Hup0) as Hup1.
  cbv zeta in Hacc, Hv. rewrite Hev in Hacc, Hv, Hup1. cbn [final_state] in *.
  destruct Hacc as (Hsc & _ & _ & Hinv & Heq).
  destruct Hv as (Hg1 & Hls1 & _ & Hlen1).
  specialize (Heq s1 eq_refl Hg0).
  assert (score s1 = 0) as Hscore by lia.
  assert (spawn_due c (now_ms f) s1 = true) as Hdue.
  { unfold spawn_due. rewrite Hg1, Hg0, Hls1, Hls0. simpl. apply Z.ltb_lt. lia. }
  pose proof (game_logic_up c (now_ms f) (rnd f) s1 Hup1) as Hup'.
  destruct (game_logic_vars c (now_ms f) (rnd f) s1) as (Hsc' & Hl' & _).
  rewrite Hsc', Hl'.
  unfold game_logic in *. rewrite Hdue in *. unfold spawn_new_mole in *.
  cbn [mole_list active_mole last_spawn_time set_mole_list score lives] in *.
  set (ms := match active_mole s1 with
             | Some i => alter deactivate i (mole_list s1)
             | None => mole_list s1
             end) in *.
  assert (length ms = 9%nat) as Hlms.
  { unfold ms. destruct (active_mole s1); [rewrite length_alter|]; congruence. }
  assert (random_choice (rnd f) ms = (rnd f mod 9)%nat) as Hk.
  { unfold random_choice. by rewrite Hlms. }
  rewrite Hk in *.
  split_and!; [|done|done|done|lia].
  apply Nat.le_antisymm; [by apply up_is_active_mole_count|].
  destruct (lookup_lt_is_Some_2 ms (rnd f mod 9)%nat) as [m0 Hm0].
  { rewrite Hlms. apply Nat.mod_upper_bound. lia. }
  apply (filter_active_ge_1 _ (rnd f mod 9)%nat
           (Mole_update (now_ms f)
              (activate (now_ms f) (set_visible_ms (mole_visible_ms c) m0)))).
  - unfold set_mole_list. cbn [mole_list].
    by rewrite list_lookup_fmap, list_lookup_alter_eq, Hm0.
  - rewrite Mole_update_fresh by lia. done.
Qed.

Lemma first_frame_spawns_witness :
  let st' := game_logic cfg_easy 3016 4
               (handle_click (handle_click st_easy (10, 300)) (200, 166)) in
  active_count st' = 1%nat ∧ active_mole st' = Some 4%nat ∧
  last_spawn_time st' = 3016 ∧ score st' = 0 ∧ lives st' = 1.
Proof.
  exact (first_frame_spawns env0 "Easy" "Default" cfg_easy st_easy
           (mkFrame 3016 [miss_at; MOUSEBUTTONDOWN 1 (200, 166)] 4) _
           eq_refl eq_refl ltac:(vm_compute; congruence) eq_refl).
Defined.

(** ** The clock *)

(** X12. The displayed time only runs down: a later clock reading never
    gives a larger [remaining_s], and from the start of the session on it
    is at most the length of the game. *)
Theorem remaining_s_runs_down c now1 now2 :
  now1 ≤ now2 →
  remaining_s c now2 ≤ remaining_s c now1 ∧
  (start_time_ms (env c) ≤ now1 →
     remaining_s c now1 ≤ Z.max 0 (game_length_seconds c)).
Proof.
  intros Hle. unfold remaining_s. split.
  - apply Z.max_le_compat_l. apply Z.quot_le_mono; lia.
  - intros Hstart.
    set (L := game_length_seconds c).
    destruct (Z_le_gt_dec 0 (L * 1000 - (now1 - start_time_ms (env c)))) as [H|H].
    + rewrite Z.quot_div_nonneg by lia.
      assert ((L * 1000 - (now1 - start_time_ms (env c))) / 1000 ≤ L)
        by (apply Z.div_le_upper_bound; lia).
      lia.
    + pose proof (Z.quot_le_mono (L * 1000 - (now1 - start_time_ms (env c))) 0 1000
                    ltac:(lia) ltac:(lia)) as Hq.
      rewrite Z.quot_0_l in Hq by lia. lia.
Qed.

Lemma remaining_s_runs_down_witness :
  remaining_s cfg_easy 20000 ≤ remaining_s cfg_easy 10000 ∧
  remaining_s cfg_easy 10000 ≤ Z.max 0 (game_length_seconds cfg_easy).
Proof.
  destruct (remaining_s_runs_down cfg_easy 10000 20000 ltac:(lia)) as [H1 H2].
  split; [exact H1 | apply H2; vm_compute; congruence].
Defined.

(** X13. Time-out is final: once a clock reading has shown no time left,
    every iteration at that or a later reading ends with the game over,
    whatever the state it starts from and whatever its events. *)
Theorem time_out_is_final c now1 st f :
  now1 ≤ now_ms f →
  remaining_s c now1 = 0 →
  remaining_s c (now_ms f) = 0 ∧
  game_over (final_state (frame c st f)) = true.
Proof.
  intros Hle Hz.
  assert (remaining_s c (now_ms f) = 0) as Hrem.
  { pose proof (remaining_s_nonneg c (now_ms f)).
    assert (remaining_s c (now_ms f) ≤ remaining_s c now1).
    { unfold remaining_s. apply Z.max_le_compat_l. apply Z.quot_le_mono; lia. }
    lia. }
  split; [done|].
  assert (game_over (game_over_check c (now_ms f) st) = true) as Hchk.
  { unfold game_over_check. rewrite Hrem. simpl.
    by destruct (game_over st) eqn:Hg. }
  unfold frame.
  destruct (handle_events_frame_vars c (events f) (game_over_check c (now_ms f) st))
    as (Hg & _).
  destruct (handle_events c _ (events f)) as [s|s|s]; cbn [final_state] in *;
    [|congruence..].
  destruct (game_logic_vars c (now_ms f) (rnd f) s) as (_ & _ & -> & _).
  congruence.
Qed.

Lemma time_out_is_final_witness :
  game_over (final_state (frame cfg_easy st_one_up
               (mkFrame 40000 [MOUSEBUTTONDOWN 1 (200, 166)] 2))) = true.
Proof.
  exact (proj2 (time_out_is_final cfg_easy 33000 st_one_up
                  (mkFrame 40000 [MOUSEBUTTONDOWN 1 (200, 166)] 2)
                  ltac:(vm_compute; congruence) eq_refl)).
Defined.

(** X14. The expiry of a mole does not depend on how often it is
    updated: updating at an earlier time and then at a later one gives
    what the later update alone gives. A skipped or a repeated iteration
    changes nothing of when a mole goes down. *)
Theorem Mole_update_absorbs_earlier now now' m :
  now ≤ now' →
  Mole_update now' (Mole_update now m) = Mole_update now' m.
Proof.
  intros Hle. unfold Mole_update.
  destruct (active m) eqn:Ha; simpl; [|by rewrite Ha].
  destruct (visible_ms m <? now - spawn_time m) eqn:H1; simpl.
  - assert ((visible_ms m <? now' - spawn_time m) = true) as ->.
    { apply Z.ltb_lt. apply Z.ltb_lt in H1. lia. }
    done.
  - by rewrite Ha.
Qed.

Lemma Mole_update_absorbs_earlier_witness :
  let m := mkMole 44 1200 false (get_rect_center 88 88 (200, 166)) true 3016 in
  Mole_update 5000 (Mole_update 4000 m) = Mole_update 5000 m.
Proof.
  exact (Mole_update_absorbs_earlier 4000 5000
           (mkMole 44 1200 false (get_rect_center 88 88 (200, 166)) true 3016)
           ltac:(lia)).
Defined.

(** * The menu and the countdown *)

(** ** What the menu hands to a session *)

Lemma menu_input_presets g i :
  selected_difficulty g ∈ difficulty_names → selected_theme g ∈ theme_names →
  selected_difficulty (menu_input g i) ∈ difficulty_names ∧
  selected_theme (menu_input g i) ∈ theme_names.
Proof.
  intros Hd Ht. destruct i as [value|index|index]; simpl.
  - done.
  - split; [|by destruct index as [|[|[|]]]].
    destruct index as [|[|[|]]]; simpl; [by_names..|done].
  - split; [by destruct index as [|[|[|[|]]]]|].
    destruct index as [|[|[|[|]]]]; simpl; [by_names..|done].
Qed.

Lemma menu_inputs_presets inputs : ∀ g,
  selected_difficulty g ∈ difficulty_names → selected_theme g ∈ theme_names →
  selected_difficulty (menu_inputs g inputs) ∈ difficulty_names ∧
  selected_theme (menu_inputs g inputs) ∈ theme_names.
Proof.
  unfold menu_inputs. induction inputs as [|i inputs IH]; intros g Hd Ht; [done|].
  simpl. destruct (menu_input_presets g i Hd Ht) as [Hd' Ht']. by apply IH.
Qed.

Lemma menu_selects_presets_aux inputs e :
  ∃ c st0,
    run_game_setup e (selected_difficulty (menu_inputs globals_initial inputs))
                   (selected_theme (menu_inputs globals_initial inputs))
    = Ok (c, st0).
Proof.
  destruct (menu_inputs_presets inputs globals_initial ltac:(by_names) ltac:(by_names))
    as [Hd _].
  destruct (DIFFICULTIES_lookup_known _ Hd) as [[[v i] l] Hl].
  destruct (run_game_setup_Ok e _ (selected_theme (menu_inputs globals_initial inputs))
              v i l Hl) as (c & st & Heq & _).
  by exists c, st.
Qed.

(** X15. Whatever the player types and selects in the menu, the names it
    hands to a session are names of the two tables: the difficulty lookup
    of [run_game] finds its key, so a session started from the menu always
    starts, and the theme fallback is never needed. *)
Theorem menu_selects_presets inputs e :
  let g := menu_inputs globals_initial inputs in
  selected_difficulty g ∈ difficulty_names ∧
  selected_theme g ∈ theme_names ∧
  is_Ok (run_game_setup e (selected_difficulty g) (selected_theme g)) = true.
Proof.
  cbv zeta.
  destruct (menu_inputs_presets inputs globals_initial ltac:(by_names) ltac:(by_names))
    as [Hd Ht].
  split; [done|]. split; [done|].
  destruct (menu_selects_presets_aux inputs e) as (c & st & ->). done.
Qed.

(** ** Play *)

Lemma theme_music_cues_default e :
  theme_music_cues e theme_Default =
  if music_loads e "assets/sounds/bg_music.mp3"
  then [MusicLoad "assets/sounds/bg_music.mp3"; MusicPlay; MusicSetVolume]
  else [].
Proof. done. Qed.

(** X16. A press on Play after any use of the menu never ends in the
    [KeyError] of the difficulty lookup. When the session returns to the
    menu and the default track loads, the audio calls end with that track
    loaded, played and its volume set, so the menu music is on again even
    if game over had stopped the music; when the process is left instead,
    nothing is restored. *)
Theorem play_restores_menu_music e inputs clock batches fs :
  let g := menu_inputs globals_initial inputs in
  (∀ k, start_the_game e g clock batches fs ≠ PlayRaised k) ∧
  (∀ log, start_the_game e g clock batches fs = BackInMenu log →
          music_loads e "assets/sounds/bg_music.mp3" = true →
          ∃ before, log = before ++ [MusicLoad "assets/sounds/bg_music.mp3";
                                     MusicPlay; MusicSetVolume]) ∧
  (∀ log, start_the_game e g clock batches fs = LeftProcess log →
          log = (if has_click_sound e then [ClickSound] else []) ∨
          ∃ c st0 st,
            run_game_setup e (selected_difficulty g) (selected_theme g) = Ok (c, st0) ∧
            run c st0 fs = ProcessExit st ∧
            log = (if has_click_sound e then [ClickSound] else []) ++ cues st).
Proof.
  cbv zeta. set (g := menu_inputs globals_initial inputs).
  destruct (menu_selects_presets_aux inputs e) as (c & st0 & Hsetup).
  fold g in Hsetup. unfold start_the_game. rewrite Hsetup.
  split_and!.
  - intros k. destruct (show_countdown clock batches); [|done..].
    by destruct (run c st0 fs).
  - intros log Hlog Hloads.
    destruct (show_countdown clock batches); [|done..].
    destruct (run c st0 fs) as [st|st|st]; [done| |done].
    injection Hlog as <-. rewrite theme_music_cues_default, Hloads.
    eexists. by rewrite app_assoc.
  - intros log Hlog.
    destruct (show_countdown clock batches); [|left; by simplify_eq|done].
    destruct (run c st0 fs) as [st|st|st] eqn:Hrun; [done|done|].
    injection Hlog as <-. right. by exists c, st0, st.
Qed.

Lemma play_restores_menu_music_witness :
  ∃ before,
    start_the_game env0
      (menu_inputs globals_initial [NameTyped "Ada"; DifficultySelected 2; ThemeSelected 1])
      [0; 1000; 1000; 2000; 2000; 3000] []
      [mkFrame 23000 [] 0; mkFrame 23016 [KEYDOWN K_ESCAPE] 0]
    = BackInMenu (before ++ [MusicLoad "assets/sounds/bg_music.mp3";
                             MusicPlay; MusicSetVolume]) ∧
    MusicStop ∈ before.
Proof.
  assert (start_the_game env0
            (menu_inputs globals_initial
               [NameTyped "Ada"; DifficultySelected 2; ThemeSelected 1])
            [0; 1000; 1000; 2000; 2000; 3000] []
            [mkFrame 23000 [] 0; mkFrame 23016 [KEYDOWN K_ESCAPE] 0]
          = BackInMenu
              ([ClickSound; MusicLoad "assets/sounds/jungle_bg.mp3"; MusicPlay;
                MusicSetVolume; MusicStop; GameOverSound]
               ++ [MusicLoad "assets/sounds/bg_music.mp3"; MusicPlay; MusicSetVolume]))
    as Hrun by (vm_compute; reflexivity).
  destruct (play_restores_menu_music env0
              [NameTyped "Ada"; DifficultySelected 2; ThemeSelected 1]
              [0; 1000; 1000; 2000; 2000; 3000] []
              [mkFrame 23000 [] 0; mkFrame 23016 [KEYDOWN K_ESCAPE] 0])
    as (_ & Hback & _).
  destruct (Hback _ Hrun eq_refl) as [before Hlog].
  apply app_inv_tail in Hlog. exists before. subst before.
  split; [exact Hrun | by_names].
Defined.

(** ** Hit cues *)

Lemma splats_of_app l1 l2 : splats_of (l1 ++ l2) = splats_of l1 + splats_of l2.
Proof. unfold splats_of. rewrite count_occ_app. lia. Qed.

Lemma handle_event_splats c st ev :
  score (final_state (handle_event c st ev))
    - splats_of (cues (final_state (handle_event c st ev)))
  = score st - splats_of (cues st).
Proof.
  destruct ev as [|b p|k|]; simpl; try done.
  - destruct (b =? 1); [|done].
    destruct (collidepoint _ p).
    { destruct (has_click_sound (env c)); simpl; [|done].
      rewrite splats_of_app. unfold splats_of at 2. simpl. lia. }
    destruct (negb (game_over st)); simpl; [|done].
    unfold handle_click. destruct (hit_loop p (mole_list st)); simpl; [|done].
    rewrite splats_of_app. unfold splats_of at 2. simpl. lia.
  - by destruct (k =? K_ESCAPE).
Qed.

Lemma handle_events_splats c evs : ∀ st,
  score (final_state (handle_events c st evs))
    - splats_of (cues (final_state (handle_events c st evs)))
  = score st - splats_of (cues st).
Proof.
  induction evs as [|ev evs IH]; intros st; simpl; [done|].
  pose proof (handle_event_splats c st ev) as Hev.
  destruct (handle_event c st ev) as [s|s|s]; cbn [final_state] in *; [|done..].
  rewrite IH. done.
Qed.

Lemma frame_splats c st f :
  score (final_state (frame c st f)) - splats_of (cues (final_state (frame c st f)))
  = score st - splats_of (cues st).
Proof.
  unfold frame.
  assert (score (game_over_check c (now_ms f) st)
            - splats_of (cues (game_over_check c (now_ms f) st))
          = score st - splats_of (cues st)) as Hchk.
  { unfold game_over_check. destruct (_ && _); simpl; [|done].
    rewrite splats_of_app. unfold splats_of at 2. simpl. lia. }
  pose proof (handle_events_splats c (events f) (game_over_check c (now_ms f) st))
    as Hev.
  destruct (handle_events c _ (events f)) as [s|s|s]; cbn [final_state] in *;
    [|lia..].
  destruct (game_logic_vars c (now_ms f) (rnd f) s) as (-> & _ & _ & ->). lia.
Qed.

(** X17. The score of a session is the number of hit sounds it has
    played: every point comes with exactly one splat, and no splat is
    played without a point. *)
Theorem score_counts_hit_cues e d t c st0 fs :
  run_game_setup e d t = Ok (c, st0) →
  score (final_state (run c st0 fs)) =
  splats_of (cues (final_state (run c st0 fs))).
Proof.
  intros Hsetup.
  assert (∀ fs st, score (final_state (run c st fs))
                     - splats_of (cues (final_state (run c st fs)))
                   = score st - splats_of (cues st)) as Hgen.
  { clear. induction fs as [|f fs IH]; intros st; simpl; [done|].
    pose proof (frame_splats c st f) as Hf.
    destruct (frame c st f) as [s|s|s]; cbn [final_state] in *; [|done..].
    rewrite IH. done. }
  specialize (Hgen fs st0).
  assert (score st0 = 0 ∧ splats_of (cues st0) = 0) as [Hs Hc].
  { unfold run_game_setup in Hsetup.
    destruct (dict_getitem DIFFICULTIES d) as [[[v i] l]|]; [|done].
    destruct create_holes. simplify_eq. simpl. split; [done|].
    unfold theme_music_cues.
    destruct (bg_music_path _); [|done].
    destruct (bool_decide _); [done|]. by destruct (music_loads e s). }
  lia.
Qed.

Lemma score_counts_hit_cues_witness :
  score (final_state (run cfg_easy st_easy
           [frame1; mkFrame 3032 [miss_at; MOUSEBUTTONDOWN 1 (200, 166)] 0])) =
  splats_of (cues (final_state (run cfg_easy st_easy
           [frame1; mkFrame 3032 [miss_at; MOUSEBUTTONDOWN 1 (200, 166)] 0]))).
Proof.
  exact (score_counts_hit_cues env0 "Easy" "Default" cfg_easy st_easy
           [frame1; mkFrame 3032 [miss_at; MOUSEBUTTONDOWN 1 (200, 166)] 0] eq_refl).
Defined.

(** ** The countdown *)



(** With a clock that does not run backwards, every reading left after a
    [while] that ends is at least a second after its start. *)
Lemma countdown_while_after n s clock : ∀ batches shown shown' clock' batches',
  StronglySorted Z.le clock →
  countdown_while n s clock batches shown = CountdownDone shown' clock' batches' →
  StronglySorted Z.le clock' ∧ Forall (λ r, s + 1000 ≤ r) clock'.
Proof.
  induction clock as [|ticks clock IH]; intros batches shown shown' clock' batches'
    Hsorted H; simpl in H; [done|].
  apply StronglySorted_inv in Hsorted as [Hrest Hhd].
  destruct (ticks - s <? 1000) eqn:Hlt.
  - destruct batches as [|evs batches]; [done|].
    destruct (existsb is_QUIT evs); [done|].
    by apply (IH _ _ _ _ _ Hrest H).
  - simplify_eq. split; [done|]. apply Z.ltb_ge in Hlt.
    eapply Forall_impl; [exact Hhd|]. intros r Hr. simpl in Hr. lia.
Qed.



Lemma countdown_for_after numbers : ∀ clock batches shown shown' clock' batches' b,
  StronglySorted Z.le clock → Forall (λ r, b ≤ r) clock →
  countdown_for numbers clock batches shown = CountdownDone shown' clock' batches' →
  StronglySorted Z.le clock' ∧
  Forall (λ r, b + 1000 * Z.of_nat (length numbers) ≤ r) clock'.
Proof.
  induction numbers as [|n numbers IH]; intros clock batches shown shown' clock'
    batches' b Hsorted Hb H; simpl in H.
  { simplify_eq. split; [done|].
    eapply Forall_impl; [exact Hb|]. intros r Hr. simpl in *. lia. }
  destruct clock as [|start_ms clock]; [done|].
  destruct (countdown_while n start_ms clock batches shown)
    as [shown1 clock1 batches1| |] eqn:Hw; [|done..].
  apply StronglySorted_inv in Hsorted as [Hrest _].
  apply Forall_cons in Hb as [Hb0 _].
  destruct (countdown_while_after _ _ _ _ _ _ _ _ Hrest Hw) as [Hs1 Ha1].
  assert (Forall (λ r, b + 1000 ≤ r) clock1) as Hb1.
  { eapply Forall_impl; [exact Ha1|]. intros r Hr. simpl in *. lia. }
  destruct (IH _ _ _ _ _ _ _ Hs1 Hb1 H) as [Hs2 Ha2].
  split; [done|].
  eapply Forall_impl; [exact Ha2|]. intros r Hr. simpl in *. lia.
Qed.



(** X19. With a clock that does not run backwards, a countdown that runs
    to its end takes at least three seconds: every clock reading after it
    is at least 3000 ms past its first reading. *)
Theorem countdown_takes_three_seconds t0 clock batches shown clock' batches' :
  StronglySorted Z.le (t0 :: clock) →
  show_countdown (t0 :: clock) batches = CountdownDone shown clock' batches' →
  Forall (λ r, t0 + 3000 ≤ r) clock'.
Proof.
  intros Hsorted H. unfold show_countdown in H.
  assert (Forall (λ r, t0 ≤ r) (t0 :: clock)) as Hb.
  { constructor; [lia|]. by apply StronglySorted_inv in Hsorted as [_ ?]. }
  destruct (countdown_for_after _ _ _ _ _ _ _ t0 Hsorted Hb H) as [_ Hall].
  eapply Forall_impl; [exact Hall|]. intros r Hr. simpl in *. lia.
Qed.

Lemma countdown_takes_three_seconds_witness :
  Forall (λ r, 100 + 3000 ≤ r) [3200; 3216].
Proof.
  refine (countdown_takes_three_seconds 100
            [600; 1100; 1100; 1700; 2100; 2100; 2600; 3100; 3200; 3216]
            [[]; []; []] [3; 2; 1] [3200; 3216] [] _ eq_refl).
  repeat (constructor; [|repeat constructor; lia]). constructor.
Defined.

(** ** Out of lives *)

(** X21. Out of lives is final: from an iteration that starts with no
    life left, the game is over at the end of every later stretch of the
    session, and neither score nor lives changes any more, whatever the
    clock and the events. *)
Theorem out_of_lives_is_final c st f fs :
  lives st ≤ 0 →
  game_over (final_state (run c st (f :: fs))) = true ∧
  score (final_state (run c st (f :: fs))) = score st ∧
  lives (final_state (run c st (f :: fs))) = lives st.
Proof.
  intros Hl.
  set (s0 := game_over_check c (now_ms f) st).
  assert (game_over s0 = true ∧ score s0 = score st ∧ lives s0 = lives st)
    as (Hg0 & Hs0 & Hl0).
  { unfold s0, game_over_check.
    assert ((lives st <=? 0) = true) as -> by (by apply Z.leb_le).
    rewrite orb_true_r. simpl. by destruct (game_over st) eqn:Hg. }
  assert (run c st (f :: fs) = run c s0 (f :: fs)) as ->.
  { unfold s0. cbn [run]. unfold frame. by rewrite game_over_check_idem. }
  pose proof (run_over c (f :: fs) s0 Hg0) as Hview.
  unfold terminal_view in Hview.
  injection Hview as Hg' _ _ Hsc Hli.
  cbn [run]. rewrite Hg', Hsc, Hli. done.
Qed.

Lemma out_of_lives_is_final_witness :
  let st := final_state (run cfg_easy st_easy
              [mkFrame 3016 [miss_at; miss_at; miss_at] 0]) in
  game_over (final_state (run cfg_easy st
              [mkFrame 3032 [MOUSEBUTTONDOWN 1 (200, 166)] 0])) = true ∧
  score (final_state (run cfg_easy st
              [mkFrame 3032 [MOUSEBUTTONDOWN 1 (200, 166)] 0])) = 0.
Proof.
  cbv zeta.
  destruct (out_of_lives_is_final cfg_easy
              (final_state (run cfg_easy st_easy
                 [mkFrame 3016 [miss_at; miss_at; miss_at] 0]))
              (mkFrame 3032 [MOUSEBUTTONDOWN 1 (200, 166)] 0) []
              ltac:(vm_compute; congruence)) as (Hg & Hs & _).
  split; [exact Hg | exact Hs].
Defined.

(** ** A hit *)

(** X22. In a session the mole a hit takes down is the one [active_mole]
    refers to, and the hit leaves no mole up: until the next spawn every
    further press is a miss, so a second press on the same mole in the
    same batch costs a life. *)
Theorem hit_leaves_no_mole_up e d t c st0 fs p ms' :
  run_game_setup e d t = Ok (c, st0) →
  hit_loop p (mole_list (final_state (run c st0 fs))) = Some ms' →
  let st := final_state (run c st0 fs) in
  (∃ i m, active_mole st = Some i ∧ mole_list st !! i = Some m ∧
          ms' = <[i := deactivate m]> (mole_list st)) ∧
  active_count (handle_click st p) = 0%nat ∧
  (∀ p', hit_loop p' ms' = None) ∧
  (∀ p', lives (handle_click (handle_click st p) p') = lives st - 1 ∧
         score (handle_click (handle_click st p) p') = score st + 1).
Proof.
  intros Hsetup Hh. cbv zeta.
  set (st := final_state (run c st0 fs)) in *.
  pose proof (run_up c fs st0 (setup_up e d t c st0 Hsetup)) as Hup.
  fold st in Hup.
  destruct (hit_loop_Some_inv p _ _ Hh) as (i & m & Hi & Hm & Hms).
  assert (active m = true) as Ha.
  { unfold hits in Hm. by apply andb_true_iff in Hm as [? _]. }
  assert (active_count (handle_click st p) = 0%nat) as Hcount.
  { pose proof (up_is_active_mole_count st Hup) as Hle.
    unfold handle_click, active_count in *. rewrite Hh. simpl.
    pose proof (hit_loop_count _ _ _ Hh). lia. }
  assert (∀ p', hit_loop p' ms' = None) as Hnone.
  { intros p'. apply hit_loop_none. intros j m' Hj.
    destruct (active m') eqn:Ha'; [|unfold hits; by rewrite Ha'].
    exfalso. unfold handle_click, active_count in Hcount.
    rewrite Hh in Hcount. simpl in Hcount.
    pose proof (filter_active_ge_1 ms' j m' Hj Ha'). lia. }
  split_and!; [|done|done|].
  - exists i, m. split_and!; [by apply (Hup i m)|done|done].
  - intros p'.
    assert (handle_click st p =
            mkState ms' (score st + 1) (lives st) (last_spawn_time st)
                    (active_mole st) (game_over st) (cues st ++ [SplatSound]))
      as -> by (unfold handle_click; by rewrite Hh).
    unfold handle_click. cbn [mole_list]. rewrite Hnone. done.
Qed.

Lemma hit_leaves_no_mole_up_witness :
  lives (handle_click (handle_click st_one_up (200, 166)) (200, 166)) = 2 ∧
  score (handle_click (handle_click st_one_up (200, 166)) (200, 166)) = 1.
Proof.
  destruct (hit_leaves_no_mole_up env0 "Easy" "Default" cfg_easy st_easy [frame1]
              (200, 166) _ eq_refl eq_refl) as (_ & _ & _ & H).
  exact (H (200, 166)).
Defined.

(** ** What the loop never changes of a mole *)

Section Kept.
Context (c : Config) (P : Mole → Prop).
Context (Hdown : ∀ m, P m → P (deactivate m)).
Context (Hup : ∀ now m, P m → P (activate now (set_visible_ms (mole_visible_ms c) m))).

Lemma hit_loop_kept p ms ms' :
  Forall P ms → hit_loop p ms = Some ms' → Forall P ms'.
Proof.
  intros Hall Hh. destruct (hit_loop_Some_inv p _ _ Hh) as (i & m & Hi & _ & ->).
  apply Forall_insert; [done|]. apply Hdown.
  by apply (Forall_lookup_1 P ms i m).
Qed.

Lemma handle_events_kept evs : ∀ st,
  Forall P (mole_list st) →
  Forall P (mole_list (final_state (handle_events c st evs))).
Proof.
  induction evs as [|ev evs IH]; intros st Hall; simpl; [done|].
  assert (Forall P (mole_list (final_state (handle_event c st ev)))) as Hev.
  { destruct ev as [|b p|k|]; simpl; try done.
    - destruct (b =? 1); [|done].
      destruct (collidepoint _ p).
      { by destruct (has_click_sound (env c)). }
      destruct (negb (game_over st)); simpl; [|done].
      unfold handle_click.
      destruct (hit_loop p (mole_list st)) eqn:Hh; simpl; [|done].
      by apply (hit_loop_kept p (mole_list st)).
    - by destruct (k =? K_ESCAPE). }
  destruct (handle_event c st ev) as [s|s|s]; simpl in *; [by apply IH|done..].
Qed.

Lemma alter_kept (g : Mole → Mole) i ms :
  (∀ m, P m → P (g m)) → Forall P ms → Forall P (alter g i ms).
Proof.
  intros Hg Hall. apply Forall_lookup_2. intros j m Hj.
  destruct (decide (i = j)) as [->|Hne].
  - rewrite list_lookup_alter_eq in Hj.
    destruct (ms !! j) as [m0|] eqn:Hm0; [|done].
    cbn [fmap option_fmap option_map] in Hj. injection Hj as <-.
    apply Hg. by apply (Forall_lookup_1 P ms j m0).
  - rewrite list_lookup_alter_ne in Hj by done.
    by apply (Forall_lookup_1 P ms j m).
Qed.

Lemma game_logic_kept now r st :
  Forall P (mole_list st) → Forall P (mole_list (game_logic c now r st)).
Proof.
  intros Hall. unfold game_logic. cbn [mole_list set_mole_list].
  apply Forall_fmap.
  assert (Forall P (mole_list (if spawn_due c now st
                               then spawn_new_mole c now r st else st))) as H1.
  { destruct (spawn_due c now st); [|done].
    unfold spawn_new_mole. cbn [mole_list].
    apply alter_kept; [intros m; apply Hup|].
    destruct (active_mole st); [by apply alter_kept | done]. }
  destruct (spawn_due c now st); cbn [mole_list] in *;
    (eapply Forall_impl; [exact H1|]); intros m Hm; simpl;
    unfold Mole_update; destruct (_ && _); auto.
Qed.

Lemma run_kept fs : ∀ st,
  Forall P (mole_list st) → Forall P (mole_list (final_state (run c st fs))).
Proof.
  induction fs as [|f fs IH]; intros st Hall; simpl; [done|].
  assert (Forall P (mole_list (final_state (frame c st f)))) as Hf.
  { unfold frame.
    assert (Forall P (mole_list (game_over_check c (now_ms f) st))) as Hchk.
    { by destruct (game_over_check_vars c (now_ms f) st) as (-> & _). }
    pose proof (handle_events_kept (events f) _ Hchk) as Hev.
    destruct (handle_events c _ (events f)) as [s|s|s]; cbn [final_state] in *;
      [|done..].
    by apply game_logic_kept. }
  destruct (frame c st f) as [s|s|s]; cbn [final_state] in *; [by apply IH|done..].
Qed.
End Kept.

(** X23. A mole is drawn as a sprite exactly when the mole image of the
    session's theme could be loaded; otherwise, and always with the
    Default theme or a theme name outside the table, it is drawn as a
    circle. This, the radius 44 and the visible time of the difficulty
    hold for all nine moles in every state of the session: the
    re-assignment of [visible_ms] at each spawn never changes a value. *)
Theorem moles_keep_their_make e d t c st0 fs i m :
  run_game_setup e d t = Ok (c, st0) →
  mole_list (final_state (run c st0 fs)) !! i = Some m →
  (use_sprite m = true ↔
     is_Some (load_surface e (mole_image_path (theme c)))) ∧
  (t = "Default" ∨ t ∉ theme_names → use_sprite m = false) ∧
  base_radius m = 44 ∧
  visible_ms m = mole_visible_ms c.
Proof.
  intros Hsetup Hm.
  set (P := λ m : Mole,
         use_sprite m = bool_decide (mole_sprite c ≠ None) ∧
         base_radius m = 44 ∧ visible_ms m = mole_visible_ms c).
  assert (Forall P (mole_list st0) ∧
          (mole_sprite c ≠ None ↔
             is_Some (load_surface e (mole_image_path (theme c)))) ∧
          theme c = dict_get (THEMES_loaded e) t (preload_theme e theme_Default))
    as (H0 & Hsprite & Htheme).
  { unfold run_game_setup in Hsetup.
    destruct (dict_getitem DIFFICULTIES d) as [[[v k] l]|]; [|done].
    destruct create_holes as [ps r] eqn:Hc.
    assert (r = 44) as -> by (rewrite create_holes_value in Hc; congruence).
    injection Hsetup as <- <-. cbn [mole_list theme mole_sprite].
    split; [|split; [|done]].
    - apply Forall_fmap, Forall_true. intros pos. unfold P.
      split_and!; reflexivity.
    - set (th := dict_get (THEMES_loaded e) t (preload_theme e theme_Default)).
      assert (mole_image_surface_raw th = load_surface e (mole_image_path th)) as ->.
      { unfold th, dict_get, THEMES_loaded. rewrite lookup_fmap.
        by destruct (THEMES !! t). }
      destruct (load_surface e (mole_image_path th)); simpl.
      + split; [by eexists | done].
      + split; [done | by intros [? ?]]. }
  assert (Forall P (mole_list (final_state (run c st0 fs)))) as Hall.
  { apply run_kept; [| |done].
    - intros m0 (? & ? & ?). by split_and!.
    - intros now m0 (? & ? & ?). by split_and!. }
  destruct (Forall_lookup_1 P _ i m Hall Hm) as (Hs & Hr & Hv).
  split_and!; [|
    |done|done].
  - rewrite Hs, <- Hsprite. by rewrite bool_decide_eq_true.
  - intros Ht. rewrite Hs. apply bool_decide_eq_false. intros Hne.
    assert (theme c = preload_theme e theme_Default) as Hdef.
    { rewrite Htheme. destruct Ht as [->|Ht].
      - unfold dict_get, THEMES_loaded. rewrite lookup_fmap. done.
      - unfold dict_get, THEMES_loaded.
        by rewrite lookup_fmap, THEMES_lookup_unknown. }
    apply Hsprite in Hne. rewrite Hdef in Hne. by destruct Hne.
Qed.

Lemma moles_keep_their_make_witness :
  use_sprite (mkMole 44 1200 false (get_rect_center (44 * 2) (44 * 2) (200, 166))
                     true 3016) = false.
Proof.
  destruct (moles_keep_their_make env0 "Easy" "Default" cfg_easy st_easy [frame1]
              0 _ eq_refl st_one_up_mole0) as (_ & H & _).
  apply H. by left.
Defined.

(** * The spawn step *)

(** The game logic of an iteration, with and without a spawn. *)
Lemma game_logic_spawn_step c st f st1 :
  length (mole_list st) = 9%nat →
  0 ≤ mole_visible_ms c →
  handle_events c (game_over_check c (now_ms f) st) (events f) = Continue st1 →
  let now := now_ms f in
  let st' := game_logic c now (rnd f) st1 in
  let k := (rnd f mod 9)%nat in
  frame c st f = Continue st' ∧
  (game_over st1 = false → spawn_interval_ms c < now - last_spawn_time st →
     (k < 9)%nat ∧
     active_mole st' = Some k ∧
     last_spawn_time st' = now ∧
     (∃ m, mole_list st1 !! k = Some m ∧
           mole_list st' !! k =
             Some (mkMole (base_radius m) (mole_visible_ms c) (use_sprite m)
                          (rect m) true now)) ∧
     (∀ i m, active_mole st1 = Some i → i ≠ k →
             mole_list st1 !! i = Some m →
             mole_list st' !! i = Some (deactivate m)) ∧
     (∀ j m, j ≠ k → active_mole st1 ≠ Some j →
             mole_list st1 !! j = Some m →
             mole_list st' !! j = Some (Mole_update now m))) ∧
  (game_over st1 = true ∨ now - last_spawn_time st ≤ spawn_interval_ms c →
     last_spawn_time st' = last_spawn_time st ∧
     active_mole st' = active_mole st1 ∧
     (∀ j m', mole_list st' !! j = Some m' → active m' = true →
              mole_list st1 !! j = Some m')) ∧
  (∀ k0, (k0 < 9)%nat → random_choice k0 (mole_list st1) = k0).
Proof.
  intros Hlen Hv Hev. cbv zeta.
  pose proof (handle_events_frame_vars c (events f) (game_over_check c (now_ms f) st))
    as Hvars.
  cbv zeta in Hvars. rewrite Hev in Hvars. cbn [final_state] in Hvars.
  destruct (game_over_check_vars c (now_ms f) st) as (Hml & Hls & _).
  destruct Hvars as (_ & Hlast & _ & Hlen1).
  rewrite Hls in Hlast. rewrite Hml, Hlen in Hlen1.
  split; [unfold frame; by rewrite Hev|].
  split; [|split].
  - intros Hg Hdue.
    assert (spawn_due c (now_ms f) st1 = true) as Hsd.
    { unfold spawn_due. rewrite Hg, Hlast. simpl. by apply Z.ltb_lt. }
    unfold game_logic. rewrite Hsd. unfold spawn_new_mole. cbn [mole_list active_mole last_spawn_time set_mole_list].
    set (ms := match active_mole st1 with
               | Some i => alter deactivate i (mole_list st1)
               | None => mole_list st1
               end).
    assert (length ms = 9%nat) as Hlms.
    { unfold ms. destruct (active_mole st1); [by rewrite length_alter | done]. }
    assert (random_choice (rnd f) ms = (rnd f mod 9)%nat) as Hk.
    { unfold random_choice. by rewrite Hlms. }
    rewrite Hk.
    assert ((rnd f mod 9 < 9)%nat) as Hk9 by (apply Nat.mod_upper_bound; lia).
    split; [done|]. split; [done|]. split; [done|].
    split; [|split].
    + destruct (lookup_lt_is_Some_2 (mole_list st1) (rnd f mod 9)%nat) as [m Hm];
        [lia|].
      exists m. split; [done|].
      rewrite list_lookup_fmap, list_lookup_alter_eq.
      assert (∃ m0, ms !! (rnd f mod 9)%nat = Some m0 ∧
                    base_radius m0 = base_radius m ∧
                    use_sprite m0 = use_sprite m ∧ rect m0 = rect m)
        as (m0 & -> & Hb & Hu & Hr).
      { unfold ms. destruct (active_mole st1) as [i|]; [|by exists m].
        destruct (decide (i = (rnd f mod 9)%nat)) as [->|Hne].
        - rewrite list_lookup_alter_eq, Hm. by eexists.
        - rewrite list_lookup_alter_ne by done. by exists m. }
      simpl. rewrite Mole_update_fresh by done. by rewrite Hb, Hu, Hr.
    + intros i m Hi Hne Hm.
      rewrite list_lookup_fmap, list_lookup_alter_ne by done.
      unfold ms. rewrite Hi, list_lookup_alter_eq, Hm. done.
    + intros j m Hne Hj Hm.
      rewrite list_lookup_fmap, list_lookup_alter_ne by done.
      unfold ms. destruct (active_mole st1) as [i|].
      * rewrite list_lookup_alter_ne by congruence. by rewrite Hm.
      * by rewrite Hm.
  - intros Hno.
    assert (spawn_due c (now_ms f) st1 = false) as Hsd.
    { unfold spawn_due. rewrite Hlast. destruct Hno as [->|Hle]; [done|].
      assert ((spawn_interval_ms c <? now_ms f - last_spawn_time st) = false)
        as -> by (apply Z.ltb_ge; lia).
      apply andb_false_r. }
    unfold game_logic. rewrite Hsd. simpl.
    split; [done|]. split; [done|].
    intros j m' Hj Ha. rewrite list_lookup_fmap in Hj.
    destruct (mole_list st1 !! j) as [m|]; simplify_eq/=.
    by rewrite (Mole_update_active _ _ Ha).
  - intros k0 Hk0. unfold random_choice. rewrite Hlen1.
    by apply Nat.mod_small.
Qed.


(** [random.choice] is balanced: of the oracle values below [9 * N], each
    of the nine indices is picked by exactly [N]. *)
Lemma random_choice_balanced (ms : list Mole) N k0 :
  length ms = 9%nat → (k0 < 9)%nat →
  length (List.filter (λ r, random_choice r ms =? k0)%nat (seq 0 (9 * N))) = N.
Proof.
  intros Hlen Hk. unfold random_choice. rewrite Hlen.
  induction N as [|N IH]; [done|].
  replace (9 * S N)%nat with (9 * N + 9)%nat by lia.
  rewrite seq_app, List.filter_app, length_app, IH.
  assert (∀ j, (j < 9)%nat → ((9 * N + j) mod 9 = j)%nat) as Hmod.
  { intros j Hj. rewrite Nat.add_comm, Nat.mul_comm, Nat.Div0.mod_add.
    by apply Nat.mod_small. }
  replace (0 + 9 * N)%nat with (9 * N + 0)%nat by lia.
  rewrite <- (fmap_add_seq (9 * N) 0 9).
  change (seq 0 9) with [0; 1; 2; 3; 4; 5; 6; 7; 8]%nat.
  cbn [fmap list_fmap List.filter].
  rewrite !Hmod by lia.
  do 9 (destruct k0 as [|k0]; [cbn; lia|]). lia.
Qed.

(** C6. In an iteration that reaches the game logic (no event of its batch
    ended the session), with [k] the index [random.choice] picks among the
    nine moles: if the game is not over and
    [now_ms - last_spawn_time > spawn_interval_ms], then [spawn_new_mole]
    runs: the mole [active_mole] referred to is deactivated (its [active]
    flag is false at the end of the iteration, unless it is picked again),
    mole [k] gets the difficulty's [visible_ms], is activated at [now_ms]
    and is up at the end of the iteration, [active_mole] refers to it and
    [last_spawn_time] is [now_ms]; where the moles that are up are the one
    [active_mole] refers to, as in every state of a session, mole [k] is
    then the only mole up. The choice is uniform over all nine moles, the
    current one included: every index can be picked, and of the oracle
    values below [9 * N] each index is picked by exactly [N]. Otherwise
    nothing is activated: a mole that is up at the end of the iteration
    was up, unchanged, before the game logic, and [last_spawn_time] and
    [active_mole] keep their values. *)
Theorem spawn_on_schedule c st f st1 :
  length (mole_list st) = 9%nat →
  0 ≤ mole_visible_ms c →
  handle_events c (game_over_check c (now_ms f) st) (events f) = Continue st1 →
  let now := now_ms f in
  let st' := game_logic c now (rnd f) st1 in
  let k := (rnd f mod 9)%nat in
  frame c st f = Continue st' ∧
  (game_over st1 = false → spawn_interval_ms c < now - last_spawn_time st →
     (k < 9)%nat ∧
     active_mole st' = Some k ∧
     last_spawn_time st' = now ∧
     (∃ m, mole_list st1 !! k = Some m ∧
           mole_list st' !! k =
             Some (mkMole (base_radius m) (mole_visible_ms c) (use_sprite m)
                          (rect m) true now)) ∧
     (∀ i m, active_mole st1 = Some i → i ≠ k →
             mole_list st1 !! i = Some m →
             mole_list st' !! i = Some (deactivate m)) ∧
     (∀ j m, j ≠ k → active_mole st1 ≠ Some j →
             mole_list st1 !! j = Some m →
             mole_list st' !! j = Some (Mole_update now m)) ∧
     (∀ i m, active_mole st1 = Some i → i ≠ k →
             mole_list st1 !! i = Some m →
             ∃ m', mole_list st' !! i = Some m' ∧ active m' = false) ∧
     (up_is_active_mole st1 →
        active_count st' = 1%nat ∧
        ∀ j m', j ≠ k → mole_list st' !! j = Some m' → active m' = false)) ∧
  (game_over st1 = true ∨ now - last_spawn_time st ≤ spawn_interval_ms c →
     last_spawn_time st' = last_spawn_time st ∧
     active_mole st' = active_mole st1 ∧
     (∀ j m', mole_list st' !! j = Some m' → active m' = true →
              mole_list st1 !! j = Some m')) ∧
  (∀ k0, (k0 < 9)%nat → random_choice k0 (mole_list st1) = k0) ∧
  (∀ N k0, (k0 < 9)%nat →
     length (List.filter (λ r, random_choice r (mole_list st1) =? k0)%nat
                         (seq 0 (9 * N))) = N).
Proof.
  intros Hlen Hv Hev. cbv zeta.
  destruct (game_logic_spawn_step c st f st1 Hlen Hv Hev)
    as (Hframe & Hspawn & Hnone & Hall).
  assert (length (mole_list st1) = 9%nat) as Hlen1.
  { pose proof (handle_events_frame_vars c (events f)
                  (game_over_check c (now_ms f) st)) as Hvars.
    cbv zeta in Hvars. rewrite Hev in Hvars. cbn [final_state] in Hvars.
    destruct (game_over_check_vars c (now_ms f) st) as (Hml & _).
    destruct Hvars as (_ & _ & _ & ->). by rewrite Hml. }
  split_and!; [done| |done|done|].
  - intros Hg Hdue.
    destruct (Hspawn Hg Hdue) as (Hk & Hact & Hlast & Hnew & Hold & Hrest).
    split_and!; try done.
    + intros i m Hi Hne Hm. exists (deactivate m).
      split; [by apply Hold | done].
    + intros Hup.
      pose proof (game_logic_up c (now_ms f) (rnd f) st1 Hup) as Hup'.
      assert (∀ j m', j ≠ (rnd f mod 9)%nat →
                mole_list (game_logic c (now_ms f) (rnd f) st1) !! j = Some m' →
                active m' = false) as Hdown.
      { intros j m' Hj Hm'. destruct (active m') eqn:Ha; [|done].
        pose proof (Hup' j m' Hm' Ha) as Hsome. congruence. }
      split; [|done].
      apply Nat.le_antisymm; [by apply up_is_active_mole_count|].
      destruct Hnew as (m & _ & Hm).
      by apply (filter_active_ge_1 _ _ _ Hm).
  - intros N k0 Hk0. by apply random_choice_balanced.
Qed.

Lemma spawn_on_schedule_witness :
  (let st' := game_logic cfg_easy 3016 4 st_easy in
   frame cfg_easy st_easy (mkFrame 3016 [] 4) = Continue st' ∧
   active_mole st' = Some 4%nat ∧ last_spawn_time st' = 3016 ∧
   active_count st' = 1%nat) ∧
  (let st' := game_logic cfg_easy 3032 7 st_one_up in
   last_spawn_time st' = 3016 ∧ active_mole st' = Some 0%nat).
Proof.
  split; cbv zeta.
  - destruct (spawn_on_schedule cfg_easy st_easy (mkFrame 3016 [] 4) st_easy
                eq_refl ltac:(vm_compute; congruence) eq_refl)
      as (Hf & Hspawn & _).
    destruct (Hspawn eq_refl eq_refl) as (_ & Ha & Hl & _ & _ & _ & _ & Hone).
    destruct (Hone ltac:(intros i m Hi Hact; exfalso;
                         do 9 (destruct i as [|i]; [vm_compute in Hi; by simplify_eq|]);
                         vm_compute in Hi; done)) as [Hcount _].
    repeat split; assumption.
  - destruct (spawn_on_schedule cfg_easy st_one_up (mkFrame 3032 [] 7) st_one_up
                eq_refl ltac:(vm_compute; congruence) eq_refl)
      as (_ & _ & Hnone & _).
    destruct Hnone as (Hl & Ha & _).
    { right. vm_compute. congruence. }
    split; [exact Hl | exact Ha].
Defined.


(** * The reference to the active mole *)

Lemma session_mole_count e d t c st0 fs :
  run_game_setup e d t = Ok (c, st0) →
  length (mole_list (final_state (run c st0 fs))) = 9%nat.
Proof.
  intros Hsetup.
  pose proof (f_equal length (run_rects c fs st0)) as Hlen.
  unfold rects in Hlen. rewrite !length_fmap in Hlen. rewrite Hlen.
  unfold run_game_setup in Hsetup.
  destruct (dict_getitem DIFFICULTIES d) as [[[v i] l]|]; [|done].
  rewrite create_holes_value in Hsetup. by simplify_eq.
Qed.

(** [active_mole] after an iteration: what it was, or the mole a spawn of
    that iteration picked. *)
Lemma frame_active_mole c st f :
  length (mole_list st) = 9%nat →
  active_mole (final_state (frame c st f)) = active_mole st ∨
  (∃ st1, handle_events c (game_over_check c (now_ms f) st) (events f) = Continue st1 ∧
          spawn_due c (now_ms f) st1 = true ∧
          active_mole (final_state (frame c st f)) = Some (rnd f mod 9)%nat).
Proof.
  intros Hlen. unfold frame.
  destruct (game_over_check_vars c (now_ms f) st) as (Hml & _ & Ham).
  destruct (handle_events_frame_vars c (events f) (game_over_check c (now_ms f) st))
    as (_ & _ & Hact & Hlen1).
  destruct (handle_events c _ (events f)) as [st1|st1|st1] eqn:Hev;
    cbn [final_state] in *; [|left; congruence..].
  unfold game_logic. destruct (spawn_due c (now_ms f) st1) eqn:Hdue.
  - right. exists st1. split_and!; [done|done|].
    unfold spawn_new_mole, set_mole_list. cbn [active_mole].
    unfold random_choice. f_equal. f_equal.
    destruct (active_mole st1); [rewrite length_alter|]; congruence.
  - left. unfold set_mole_list. cbn [active_mole]. congruence.
Qed.

(** C2, as amended: at every point of a session at most one mole is up,
    and a mole that is up is the one [active_mole] refers to: spawning,
    a hit and the expiry of [Mole.update] all keep this. [active_mole]
    itself is assigned only by a spawn: an iteration leaves it as it was
    unless it spawns, and never resets it to [None]. So after a hit it
    still refers to the mole that was hit, whose [active] flag is now
    false, and after the expiry of [Mole.update] it still refers to the
    mole that has gone down. *)
Theorem at_most_one_up e d t c st0 fs :
  run_game_setup e d t = Ok (c, st0) →
  let st := final_state (run c st0 fs) in
  (active_count st ≤ 1)%nat ∧
  (∀ i m, mole_list st !! i = Some m → active m = true →
          active_mole st = Some i) ∧
  (∀ f, active_mole (final_state (frame c st f)) = active_mole st ∨
        (∃ st1, handle_events c (game_over_check c (now_ms f) st) (events f)
                  = Continue st1 ∧
                spawn_due c (now_ms f) st1 = true ∧
                active_mole (final_state (frame c st f)) = Some (rnd f mod 9)%nat)) ∧
  (∀ f, active_mole st ≠ None → active_mole (final_state (frame c st f)) ≠ None) ∧
  (∀ p, active_mole (handle_click st p) = active_mole st) ∧
  (∀ p ms', hit_loop p (mole_list st) = Some ms' →
     ∃ i m m', mole_list st !! i = Some m ∧ active m = true ∧
               active_mole (handle_click st p) = Some i ∧
               mole_list (handle_click st p) !! i = Some m' ∧
               active m' = false) ∧
  (∀ now r i m,
     spawn_due c now st = false →
     active_mole st = Some i → mole_list st !! i = Some m → active m = true →
     visible_ms m < now - spawn_time m →
     active_mole (game_logic c now r st) = Some i ∧
     ∃ m', mole_list (game_logic c now r st) !! i = Some m' ∧ active m' = false).
Proof.
  intros Hsetup. cbv zeta.
  pose proof (run_up c fs st0 (setup_up e d t c st0 Hsetup)) as Hinv.
  pose proof (session_mole_count e d t c st0 fs Hsetup) as Hlen.
  set (st := final_state (run c st0 fs)) in *.
  split_and!.
  - by apply up_is_active_mole_count.
  - exact Hinv.
  - intros f. by apply frame_active_mole.
  - intros f Hsome.
    destruct (frame_active_mole c st f Hlen) as [->|(st1 & _ & _ & ->)]; done.
  - intros p. unfold handle_click. by destruct (hit_loop p (mole_list st)).
  - intros p ms' Hh.
    destruct (hit_loop_Some_inv p _ _ Hh) as (i & m & Hi & Hm & ->).
    assert (active m = true) as Ha.
    { unfold hits in Hm. by apply andb_true_iff in Hm as [? _]. }
    exists i, m, (deactivate m). unfold handle_click. rewrite Hh.
    cbn [active_mole mole_list]. split_and!; [done|done| | |done].
    + by apply (Hinv i m).
    + apply list_lookup_insert_eq. by eapply lookup_lt_Some.
  - intros now r i m Hdue Hact Hi Ha Hexp.
    unfold game_logic. rewrite Hdue. unfold set_mole_list.
    cbn [active_mole mole_list]. split; [done|].
    exists (deactivate m). split; [|done].
    rewrite list_lookup_fmap, Hi. cbn [fmap option_fmap option_map].
    unfold Mole_update. rewrite Ha.
    assert ((visible_ms m <? now - spawn_time m) = true) as ->
      by (by apply Z.ltb_lt).
    done.
Qed.

Lemma at_most_one_up_witness :
  (active_count (final_state (run cfg_easy st_easy
      [frame1; mkFrame 4000 [] 3; mkFrame 5000 [miss_at] 3])) ≤ 1)%nat ∧
  (∃ m', active_mole (handle_click st_one_up (200, 166)) = Some 0%nat ∧
         mole_list (handle_click st_one_up (200, 166)) !! 0%nat = Some m' ∧
         active m' = false) ∧
  (∃ m', active_mole (game_logic cfg_easy 5000 7 st_lost) = Some 0%nat ∧
         mole_list (game_logic cfg_easy 5000 7 st_lost) !! 0%nat = Some m' ∧
         active m' = false).
Proof.
  split_and!.
  - exact (proj1 (at_most_one_up env0 "Easy" "Default" cfg_easy st_easy
                    [frame1; mkFrame 4000 [] 3; mkFrame 5000 [miss_at] 3] eq_refl)).
  - destruct (at_most_one_up env0 "Easy" "Default" cfg_easy st_easy [frame1] eq_refl)
      as (_ & _ & _ & _ & _ & Hhit & _).
    destruct (Hhit (200, 166) _ eq_refl) as (i & m & m' & Hi & Ha & Hact & Hm' & Hdown).
    assert (i = 0%nat) as -> by (vm_compute in Hact; congruence).
    by exists m'.
  - destruct (at_most_one_up env0 "Easy" "Default" cfg_easy st_easy
                [frame1; mkFrame 3032 [miss_at; miss_at; miss_at] 0; mkFrame 3048 [] 0]
                eq_refl) as (_ & _ & _ & _ & _ & _ & Hexp).
    destruct (Hexp 5000 7%nat 0%nat _ eq_refl eq_refl eq_refl eq_refl
                ltac:(vm_compute; congruence)) as (Hact & m' & Hm' & Hdown).
    by exists m'.
Defined.
